(** * Patent claims to Mermaid diagram generator: a shallow embedding

    The development embeds [patent_drawing_generator.py]: the component
    taxonomy ([ComponentType]), the two records ([PatentComponent],
    [PatentConnection]), the parser ([PatentClaimsParser]) with the regular
    expressions it hands to [re], and the renderer ([MermaidGenerator]).

    Modelling choices.
    - A Python [str] is a [list ascii], and the text in scope is ASCII
      text, [isascii]: case mapping, [\s], [\w], [\d] and [re.IGNORECASE]
      are Python's rules below code point 128.  Beyond it Python follows
      Unicode ([re.IGNORECASE] lets [i] match U+0130 and U+0131 and [s]
      match U+017F, [lower] maps U+0130 to two characters, U+00A0 is
      whitespace), which is not modelled.  A property that depends on what
      the matcher finds or on case mapping is therefore stated for ASCII
      text; one that holds whatever the matcher finds has no such
      hypothesis.
    - A Python [int] is a [Z].  [int(x)] raises [ValueError] on a run of
      more than [sys.int_max_str_digits] digits; [int_returns] says whether
      the call returns and [int] is its value when it does.  A property of
      what [_extract_components] returns holds of the values of [int]; one
      that says that it returns assumes [int_returns] of every cited
      number.
    - A [dict] is an association list in insertion order: the program
      iterates over its dicts, so the order is observable.
    - [re] is a backtracking matcher over the fragment of the pattern
      language that the program uses.  The keyword phrases and the names of
      extracted components, which the program splices into patterns as
      they are, consist of letters and whitespace and denote themselves in
      a pattern; a property of [_extract_relationships] on components from
      elsewhere assumes such names. *)

From Stdlib Require Import Ascii String ZArith Bool Lia Arith List.
From Stdlib Require Import DecimalString DecimalZ FinFun Permutation Sorted.
Import ListNotations.
Open Scope list_scope.

Set Implicit Arguments.

(** ** Python strings *)

Definition str := list ascii.

(** [txt "..."] is the Python literal with that text. *)
Definition txt (x : string) : str := list_ascii_of_string x.

(** The text without characters, and two characters used below. *)
Definition empty : str := [].
Definition dquote : ascii := ascii_of_nat 34.
Definition newline : ascii := ascii_of_nat 10.

Definition str_eqb (a b : str) : bool :=
  if list_eq_dec ascii_dec a b then true else false.

Module Char.

Definition code (c : ascii) : nat := nat_of_ascii c.

Definition is_upper (c : ascii) : bool := (65 <=? code c) && (code c <=? 90).
Definition is_lower (c : ascii) : bool := (97 <=? code c) && (code c <=? 122).
Definition is_alpha (c : ascii) : bool := is_upper c || is_lower c.
Definition is_digit (c : ascii) : bool := (48 <=? code c) && (code c <=? 57).

(** Whitespace as [str.isspace], [str.strip] and [\s] see it in ASCII
    text: TAB, LF, VT, FF, CR, the four separators FS GS RS US, and SPACE. *)
Definition is_space (c : ascii) : bool :=
  ((9 <=? code c) && (code c <=? 13)) ||
  ((28 <=? code c) && (code c <=? 31)) ||
  (code c =? 32).

(** [\w] in ASCII text: letters, digits and the underscore. *)
Definition is_word (c : ascii) : bool :=
  is_alpha c || is_digit c || (code c =? 95).

Definition to_lower (c : ascii) : ascii :=
  if is_upper c then ascii_of_nat (code c + 32) else c.

Definition to_upper (c : ascii) : ascii :=
  if is_lower c then ascii_of_nat (code c - 32) else c.

End Char.

(** [str.isascii] *)
Definition isascii (x : str) : bool := forallb (fun c => Char.code c <? 128) x.

(** [str.lower], on ASCII text. *)
Definition lower (x : str) : str := map Char.to_lower x.

(** [str.title]: a letter that follows a letter is lower-cased, any other
    letter is upper-cased, every other character is kept. *)
Fixpoint title_from (previous_is_cased : bool) (x : str) : str :=
  match x with
  | [] => []
  | c :: x' =>
      if Char.is_alpha c
      then (if previous_is_cased then Char.to_lower c else Char.to_upper c)
             :: title_from true x'
      else c :: title_from false x'
  end.

Definition title (x : str) : str := title_from false x.

(** [str.strip] *)
Fixpoint lstrip (x : str) : str :=
  match x with
  | c :: x' => if Char.is_space c then lstrip x' else x
  | [] => []
  end.

Definition rstrip (x : str) : str := rev (lstrip (rev x)).
Definition strip (x : str) : str := rstrip (lstrip x).

(** [p in x] for strings: [p] occurs in [x] as a contiguous block. *)
Fixpoint startswith (p x : str) : bool :=
  match p, x with
  | [], _ => true
  | a :: p', b :: x' => Ascii.eqb a b && startswith p' x'
  | _ :: _, [] => false
  end.

Fixpoint contains (p x : str) : bool :=
  startswith p x ||
  match x with
  | [] => false
  | _ :: x' => contains p x'
  end.

(** [sep.join(xs)] *)
Fixpoint join (sep : str) (xs : list str) : str :=
  match xs with
  | [] => []
  | [x] => x
  | x :: xs' => x ++ sep ++ join sep xs'
  end.

(** [int(x)] on a run of decimal digits, and [str(n)].  With the default
    [sys.int_max_str_digits] of CPython, [int(x)] returns for a run of at
    most 4300 digits, leading zeros counted, and raises [ValueError] for a
    longer one. *)
Definition int_max_str_digits : nat := 4300.

Definition int_returns (x : str) : bool := length x <=? int_max_str_digits.

Definition digit_value (c : ascii) : Z := Z.of_nat (Char.code c - 48).

Definition int (x : str) : Z :=
  fold_left (fun acc c => (10 * acc + digit_value c)%Z) x 0%Z.

Definition str_of_int (n : Z) : str :=
  list_ascii_of_string (NilEmpty.string_of_int (Z.to_int n)).

(** [s.replace(a, b)] for single characters. *)
Definition replace_char (a b : ascii) (x : str) : str :=
  map (fun c => if Ascii.eqb c a then b else c) x.

(** ** Insertion-ordered dictionaries *)

Section Dict.
Variables K V : Type.
Variable K_eqb : K -> K -> bool.

Definition dict := list (K * V).

Fixpoint dict_get (d : dict) (k : K) : option V :=
  match d with
  | [] => None
  | (k', v) :: d' => if K_eqb k k' then Some v else dict_get d' k
  end.

(** [d[k] = v]: an existing key keeps its place and takes the new value,
    a new key goes to the end. *)
Fixpoint dict_set (d : dict) (k : K) (v : V) : dict :=
  match d with
  | [] => [(k, v)]
  | (k', v') :: d' =>
      if K_eqb k k' then (k', v) :: d' else (k', v') :: dict_set d' k v
  end.

(** A dict display [{k1: v1, k2: v2, ...}] stores the items left to right. *)
Definition dict_display (items : list (K * V)) : dict :=
  fold_left (fun d kv => dict_set d (fst kv) (snd kv)) items [].

End Dict.

(** ** [class ComponentType(Enum)]

    The class body binds ten names to six distinct values.  An [Enum]
    member is created for the first name bound to a value; a later name
    bound to the same value is an alias for that member, not a member of
    its own.  [ComponentType] is the type of members; [class_body] keeps
    the body as it is written, and [attribute] resolves a name the way
    [ComponentType.NAME] does. *)

Inductive ComponentType : Type :=
| PROCESS | DATABASE | DECISION | INTERFACE | NETWORK | DOCUMENT.

Module Enum.

Definition class_body : list (string * string) :=
  [ ("PROCESS", "rectangle");
    ("DATABASE", "cylinder");
    ("DECISION", "diamond");
    ("INTERFACE", "parallelogram");
    ("STORAGE", "cylinder");
    ("CONTROLLER", "rectangle");
    ("SENSOR", "parallelogram");
    ("DISPLAY", "parallelogram");
    ("NETWORK", "circle");
    ("DOCUMENT", "document") ]%string.

Definition members : list ComponentType :=
  [PROCESS; DATABASE; DECISION; INTERFACE; NETWORK; DOCUMENT].

(** [member.name] and [member.value] *)
Definition name (t : ComponentType) : string :=
  match t with
  | PROCESS => "PROCESS"
  | DATABASE => "DATABASE"
  | DECISION => "DECISION"
  | INTERFACE => "INTERFACE"
  | NETWORK => "NETWORK"
  | DOCUMENT => "DOCUMENT"
  end.

Definition value (t : ComponentType) : string :=
  match t with
  | PROCESS => "rectangle"
  | DATABASE => "cylinder"
  | DECISION => "diamond"
  | INTERFACE => "parallelogram"
  | NETWORK => "circle"
  | DOCUMENT => "document"
  end.

(** The bindings of the class body that create a member: those whose value
    no earlier binding has. *)
Fixpoint first_bindings (seen : list string) (body : list (string * string))
  : list (string * string) :=
  match body with
  | [] => []
  | (n, v) :: body' =>
      if existsb (String.eqb v) seen then first_bindings seen body'
      else (n, v) :: first_bindings (v :: seen) body'
  end.

(** [ComponentType.NAME]: the member that carries the value bound to the
    name. *)
Definition attribute (n : string) : option ComponentType :=
  match find (fun b => String.eqb (fst b) n) class_body with
  | Some (_, v) => find (fun t => String.eqb (value t) v) members
  | None => None
  end.

End Enum.

(** The four names of the class body that are aliases. *)
Definition STORAGE : ComponentType := DATABASE.
Definition CONTROLLER : ComponentType := PROCESS.
Definition SENSOR : ComponentType := INTERFACE.
Definition DISPLAY : ComponentType := INTERFACE.

Definition ComponentType_eqb (a b : ComponentType) : bool :=
  match a, b with
  | PROCESS, PROCESS | DATABASE, DATABASE | DECISION, DECISION
  | INTERFACE, INTERFACE | NETWORK, NETWORK | DOCUMENT, DOCUMENT => true
  | _, _ => false
  end.

(** ** The two dataclasses *)

Record PatentComponent : Type := mkPatentComponent {
  name : str;
  reference_num : Z;
  component_type : ComponentType;
  description : str;
  relationships : list str
}.

(** The constructor call of the program: the two defaulted fields are left
    at their defaults. *)
Definition PatentComponent_ (name : str) (reference_num : Z)
  (component_type : ComponentType) : PatentComponent :=
  mkPatentComponent name reference_num component_type [] [].

Record PatentConnection : Type := mkPatentConnection {
  from_component : str;
  to_component : str;
  label : str;
  connection_type : str
}.

Definition PatentConnection_ (from_component to_component label : str)
  : PatentConnection :=
  mkPatentConnection from_component to_component label (txt "data_flow").

(** [f"COMP{n}"] *)
Definition COMP (n : Z) : str := txt "COMP" ++ str_of_int n.

(** ** The fragment of [re] that the program uses

    Character sets: a literal character, [[a-zA-Z\s]], [\s], [\d] and [.]
    (which, without [re.DOTALL], is every character but the line feed).
    Under [re.IGNORECASE] a literal matches either case of its letter;
    membership is the one of ASCII text. *)

Inductive cset : Type :=
| CsChar (c : ascii)
| CsAlphaSpace
| CsSpace
| CsDigit
| CsDot.

Definition cset_mem (ignorecase : bool) (cs : cset) (c : ascii) : bool :=
  match cs with
  | CsChar a =>
      if ignorecase then Ascii.eqb (Char.to_lower c) (Char.to_lower a)
      else Ascii.eqb c a
  | CsAlphaSpace => Char.is_alpha c || Char.is_space c
  | CsSpace => Char.is_space c
  | CsDigit => Char.is_digit c
  | CsDot => negb (Ascii.eqb c newline)
  end.

(** Patterns.  [Rep greedy lo cs] is a quantified character set: [cs*] and
    [cs+] for [lo] 0 and 1 when [greedy], [cs*?] and [cs+?] otherwise (the
    program quantifies nothing but single character sets).  [WordB] is
    [\b]; [Group] is a capturing group. *)
Inductive regex : Type :=
| Eps
| Chr (cs : cset)
| Rep (greedy : bool) (lo : nat) (cs : cset)
| WordB
| Group (r : regex)
| Seq (r1 r2 : regex).

(** A phrase of letters and whitespace spliced into a pattern: every
    character stands for itself. *)
Fixpoint re_lit (x : str) : regex :=
  match x with
  | [] => Eps
  | c :: x' => Seq (Chr (CsChar c)) (re_lit x')
  end.

Definition is_word_opt (c : option ascii) : bool :=
  match c with
  | Some a => Char.is_word a
  | None => false
  end.

Section Matcher.
Variable A : Type.
Variable ignorecase : bool.

(** The state of a match attempt: the character before the current
    position (none at the start of the text), the text from the current
    position on, and the groups closed so far. *)
Definition cont : Type := option ascii -> str -> list str -> option A.

(** A quantified character set.  Lazy: stop as soon as allowed, take one
    more character only when the rest of the pattern fails.  Greedy: take
    characters while possible, stop where the rest of the pattern succeeds,
    longest first. *)
Fixpoint rep (greedy : bool) (cs : cset) (lo : nat) (prev : option ascii)
  (x : str) (k : option ascii -> str -> option A) {struct x} : option A :=
  let stop := fun _ : unit =>
    match lo with
    | O => k prev x
    | S _ => None
    end in
  let more := fun _ : unit =>
    match x with
    | c :: x' =>
        if cset_mem ignorecase cs c
        then rep greedy cs (pred lo) (Some c) x' k
        else None
    | [] => None
    end in
  if greedy
  then match more tt with Some a => Some a | None => stop tt end
  else match stop tt with Some a => Some a | None => more tt end.

(** The backtracking matcher, in continuation-passing style: [k] is the
    rest of the pattern.  Groups are recorded in the order they close (the
    program's patterns have no nested groups). *)
Fixpoint rmatch (r : regex) (prev : option ascii) (x : str)
  (caps : list str) (k : cont) {struct r} : option A :=
  match r with
  | Eps => k prev x caps
  | Chr cs =>
      match x with
      | c :: x' => if cset_mem ignorecase cs c then k (Some c) x' caps else None
      | [] => None
      end
  | Rep greedy lo cs =>
      rep greedy cs lo prev x (fun prev' x' => k prev' x' caps)
  | WordB =>
      if xorb (is_word_opt prev) (is_word_opt (hd_error x))
      then k prev x caps else None
  | Group r1 =>
      rmatch r1 prev x caps
        (fun prev' x' caps' =>
           k prev' x' (caps' ++ [firstn (length x - length x') x]))
  | Seq r1 r2 =>
      rmatch r1 prev x caps (fun prev' x' caps' => rmatch r2 prev' x' caps' k)
  end.

End Matcher.

(** A match object: the matched text and the groups. *)
Definition match_obj : Type := (str * list str)%type.

(** One attempt at the current position. *)
Definition match_at (ignorecase : bool) (r : regex) (prev : option ascii)
  (x : str) : option match_obj :=
  rmatch ignorecase r prev x []
    (fun _ x' caps => Some (firstn (length x - length x') x, caps)).

(** The scan behind [re.findall]: try every position from left to right,
    and after a match resume where it ended ([skip] counts the characters
    of the last match still to be stepped over).  No pattern of the program
    matches the empty string. *)
Fixpoint scan (ignorecase : bool) (r : regex) (prev : option ascii) (x : str)
  (skip : nat) {struct x} : list match_obj :=
  match skip with
  | S n =>
      match x with
      | [] => []
      | c :: x' => scan ignorecase r (Some c) x' n
      end
  | O =>
      match match_at ignorecase r prev x with
      | Some m =>
          m :: match x with
               | [] => []
               | c :: x' => scan ignorecase r (Some c) x' (pred (length (fst m)))
               end
      | None =>
          match x with
          | [] => []
          | c :: x' => scan ignorecase r (Some c) x' 0
          end
      end
  end.

Definition finditer (ignorecase : bool) (r : regex) (text : str)
  : list match_obj :=
  scan ignorecase r None text 0.

(** [re.findall] for a pattern without groups: the matched texts. *)
Definition findall (ignorecase : bool) (r : regex) (text : str) : list str :=
  map fst (finditer ignorecase r text).

(** [re.findall] for a pattern with two groups: the pairs of groups. *)
Definition findall2 (ignorecase : bool) (r : regex) (text : str)
  : list (str * str) :=
  map (fun m => (nth 0 (snd m) [], nth 1 (snd m) [])) (finditer ignorecase r text).

(** [re.search], as a truth value: is there a match at some position? *)
Fixpoint search_from (ignorecase : bool) (r : regex) (prev : option ascii)
  (x : str) {struct x} : bool :=
  match match_at ignorecase r prev x with
  | Some _ => true
  | None =>
      match x with
      | [] => false
      | c :: x' => search_from ignorecase r (Some c) x'
      end
  end.

Definition search (ignorecase : bool) (r : regex) (text : str) : bool :=
  search_from ignorecase r None text.

(** ** [class PatentClaimsParser] *)

Module PatentClaimsParser.

(** [self.component_patterns]: a dict display with six items, keyed by
    [ComponentType] attributes. *)
Definition component_patterns : dict ComponentType (list str) :=
  dict_display ComponentType_eqb
    [ (PROCESS,
        map txt ["processing unit"; "processor"; "processing system";
                 "computing device"; "processing module"]%string);
      (DATABASE,
        map txt ["database"; "data store"; "storage system"; "memory";
                 "data repository"; "storage device"]%string);
      (CONTROLLER,
        map txt ["controller"; "control unit"; "control system";
                 "control module"; "control device"]%string);
      (INTERFACE,
        map txt ["interface"; "user interface"; "communication interface";
                 "network interface"; "input interface"]%string);
      (SENSOR,
        map txt ["sensor"; "detector"; "monitoring device";
                 "measurement device"; "input device"]%string);
      (DISPLAY,
        map txt ["display"; "screen"; "monitor"; "output device";
                 "visual display"; "user display"]%string) ].

Definition relationship_patterns : list str :=
  map txt ["connected to"; "coupled to"; "in communication with";
           "operatively connected"; "electrically connected";
           "configured to receive"; "configured to send";
           "transmits to"; "receives from"]%string.

(** [_classify_component] *)
Definition _classify_component (component_name : str) : ComponentType :=
  let name_lower := lower component_name in
  match find (fun item => existsb (fun pattern => contains pattern name_lower)
                                  (snd item))
             component_patterns with
  | Some (comp_type, _) => comp_type
  | None => PROCESS
  end.

(** [r'([a-zA-Z\s]+?)\s*\((\d+)\)'] *)
Definition component_pattern : regex :=
  Seq (Group (Rep false 1 CsAlphaSpace))
 (Seq (Rep true 0 CsSpace)
 (Seq (Chr (CsChar "("))
 (Seq (Group (Rep true 1 CsDigit))
      (Chr (CsChar ")"))))).

(** [rf'\b{pattern}\b'] *)
Definition keyword_pattern (pattern : str) : regex :=
  Seq WordB (Seq (re_lit pattern) WordB).

(** The first loop of [_extract_components]: one component per citation. *)
Definition cited_components (text : str) : list PatentComponent :=
  map (fun m =>
         let component_name := strip (fst m) in
         let ref_num := int (snd m) in
         PatentComponent_ component_name ref_num
                          (_classify_component component_name))
      (findall2 false component_pattern text).

(** The body of the innermost loop of the keyword scan, on the state
    [(components, reference_counter)]. *)
Definition scan_step (comp_type : ComponentType)
  (st : list PatentComponent * Z) (m : str) : list PatentComponent * Z :=
  let (components, reference_counter) := st in
  if existsb (fun comp => str_eqb (lower (name comp)) (lower m)) components
  then st
  else (components ++ [PatentComponent_ (title m) reference_counter comp_type],
        (reference_counter + 2)%Z).

Definition scan_pattern (text : str) (comp_type : ComponentType)
  (st : list PatentComponent * Z) (pattern : str) : list PatentComponent * Z :=
  fold_left (scan_step comp_type)
            (findall true (keyword_pattern pattern) text) st.

Definition scan_type (text : str) (st : list PatentComponent * Z)
  (item : ComponentType * list str) : list PatentComponent * Z :=
  fold_left (scan_pattern text (fst item)) (snd item) st.

Definition keyword_scan (text : str) (st : list PatentComponent * Z)
  : list PatentComponent * Z :=
  fold_left (scan_type text) component_patterns st.

(** [_extract_components] *)
Definition _extract_components (text : str) : list PatentComponent :=
  let components := cited_components text in
  let reference_counter := 10%Z in
  match components with
  | [] => fst (keyword_scan text (components, reference_counter))
  | _ :: _ => components
  end.

(** [rf'{comp1.name}.*?{pattern}.*?{comp2.name}'], for names of letters
    and whitespace: the program splices the names in as pattern source, and
    such a name is the pattern of its own text. *)
Definition link_pattern (name1 pattern name2 : str) : regex :=
  Seq (re_lit name1)
 (Seq (Rep false 0 CsDot)
 (Seq (re_lit pattern)
 (Seq (Rep false 0 CsDot)
      (re_lit name2)))).

(** The loop over [self.relationship_patterns] for one pair, left by
    [break] at the first pattern found. *)
Definition pair_connection (text : str) (comp1 comp2 : PatentComponent)
  : list PatentConnection :=
  match find (fun pattern =>
                search true (link_pattern (name comp1) pattern (name comp2)) text)
             relationship_patterns with
  | Some pattern =>
      [PatentConnection_ (COMP (reference_num comp1))
                         (COMP (reference_num comp2))
                         (title pattern)]
  | None => []
  end.

(** [_extract_relationships]: [comp1] runs over the components and [comp2]
    over [components[i+1:]]. *)
Fixpoint _extract_relationships (text : str) (components : list PatentComponent)
  : list PatentConnection :=
  match components with
  | [] => []
  | comp1 :: rest =>
      flat_map (pair_connection text comp1) rest
        ++ _extract_relationships text rest
  end.

(** Every keyword occurrence with the type it is registered under, in the
    order in which the three nested loops of the keyword scan visit them. *)
Definition keyword_matches (text : str) : list (ComponentType * str) :=
  flat_map (fun item =>
    flat_map (fun pattern =>
      map (pair (fst item)) (findall true (keyword_pattern pattern) text))
      (snd item))
    component_patterns.

(** [parse_claims] *)
Definition parse_claims (claims_text : str)
  : list PatentComponent * list PatentConnection :=
  let components := _extract_components claims_text in
  let connections := _extract_relationships claims_text components in
  (components, connections).

End PatentClaimsParser.

(** ** Rendering of the two dataclasses *)

(** [PatentComponent.to_mermaid_node].  The branches are tested in the
    order of the program; [STORAGE], [SENSOR] and [DISPLAY] are the aliases
    above. *)
Definition to_mermaid_node (self : PatentComponent) : str :=
  let node_id := COMP (reference_num self) in
  let display_name := name self ++ txt " " ++ str_of_int (reference_num self) in
  if ComponentType_eqb (component_type self) DATABASE
     || ComponentType_eqb (component_type self) STORAGE
  then node_id ++ txt "[(" ++ [dquote] ++ display_name ++ [dquote] ++ txt ")]"
  else if ComponentType_eqb (component_type self) DECISION
  then node_id ++ txt "{" ++ display_name ++ txt "}"
  else if ComponentType_eqb (component_type self) INTERFACE
          || ComponentType_eqb (component_type self) SENSOR
  then node_id ++ txt "[/" ++ display_name ++ txt "/]"
  else if ComponentType_eqb (component_type self) DISPLAY
  then node_id ++ txt "[/" ++ [dquote] ++ display_name ++ [dquote] ++ txt "/]"
  else if ComponentType_eqb (component_type self) NETWORK
  then node_id ++ txt "((" ++ display_name ++ txt "))"
  else if ComponentType_eqb (component_type self) DOCUMENT
  then node_id ++ txt "[[" ++ [dquote] ++ display_name ++ [dquote] ++ txt "]]"
  else node_id ++ txt "[" ++ display_name ++ txt "]".

(** [PatentConnection.to_mermaid_connection] *)
Definition to_mermaid_connection (self : PatentConnection) : str :=
  let styled_label :=
    txt "<span style=" ++ [dquote]
      ++ txt "font-size:24px;font-weight:bold;background:white;padding:6px"
      ++ [dquote] ++ txt ">" ++ label self ++ txt "</span>" in
  from_component self ++ txt " -.->|" ++ [dquote] ++ styled_label ++ [dquote]
    ++ txt "| " ++ to_component self.

(** ** [class MermaidGenerator] *)

Module MermaidGenerator.

Definition mermaid_config : str :=
  join [newline] (map txt
    [ "%%{init: {";
      "  'theme':'base', ";
      "  'themeVariables': { ";
      "    'primaryColor': '#ffffff', ";
      "    'primaryTextColor': '#000000', ";
      "    'primaryBorderColor': '#000000', ";
      "    'lineColor': '#000000', ";
      "    'background': '#ffffff', ";
      "    'mainBkg': '#ffffff', ";
      "    'secondBkg': '#ffffff', ";
      "    'tertiaryBkg': '#ffffff', ";
      "    'edgeLabelBackground': '#ffffff',";
      "    'clusterBkg': 'rgba(0,0,0,0)',";
      "    'altBackground': '#ffffff',";
      "    'cScale0': '#ffffff', ";
      "    'cScale1': '#ffffff', ";
      "    'cScale2': '#ffffff'";
      "  }, ";
      "  'flowchart': {'curve': 'linear'}, ";
      "  'fontSize': 20";
      "}}%%" ]%string).

(** [_group_components_by_type]: a dict from type to the list of its
    components; a type enters the dict when its first component is seen. *)
Definition group_step (grouped : dict ComponentType (list PatentComponent))
  (comp : PatentComponent) : dict ComponentType (list PatentComponent) :=
  let grouped' :=
    match dict_get ComponentType_eqb grouped (component_type comp) with
    | None => dict_set ComponentType_eqb grouped (component_type comp) []
    | Some _ => grouped
    end in
  match dict_get ComponentType_eqb grouped' (component_type comp) with
  | Some members =>
      dict_set ComponentType_eqb grouped' (component_type comp) (members ++ [comp])
  | None => grouped'
  end.

Definition _group_components_by_type (components : list PatentComponent)
  : dict ComponentType (list PatentComponent) :=
  fold_left group_step components [].

(** [_generate_subgraph] *)
Definition _generate_subgraph (comp_type : ComponentType)
  (components : list PatentComponent) : list str :=
  let subgraph_name := txt (Enum.name comp_type) ++ txt "_SYS" in
  let subgraph_title :=
    replace_char "_" " " (txt (Enum.name comp_type)) ++ txt " SYSTEM" in
  let lines :=
    [ txt "    subgraph " ++ subgraph_name ++ txt " [" ++ [dquote] ++ txt " "
        ++ [dquote] ++ txt "]";
      txt "        direction TB";
      txt "        " ++ subgraph_name ++ txt "_TITLE[" ++ [dquote]
        ++ subgraph_title ++ [dquote] ++ txt "]" ] in
  let lines :=
    lines ++ map (fun comp => txt "        " ++ to_mermaid_node comp) components in
  let lines :=
    match components with
    | first :: _ =>
        lines ++ [ txt "        " ++ subgraph_name ++ txt "_TITLE ~~~ "
                     ++ COMP (reference_num first) ]
    | [] => lines
    end in
  lines ++ [txt "    end"; empty].

(** [_generate_styling] *)
Definition _generate_styling (components : list PatentComponent) : str :=
  let styling_lines :=
    [ txt "    %% USPTO-Compliant Styling";
      txt "    classDef default fill:#ffffff,stroke:#000000,stroke-width:3px,color:#000000,font-size:20px,font-weight:bold" ] in
  let comp_ids := map (fun comp => COMP (reference_num comp)) components in
  let styling_lines :=
    match comp_ids with
    | _ :: _ =>
        styling_lines
          ++ [txt "    class " ++ join (txt ",") comp_ids ++ txt " default"]
    | [] => styling_lines
    end in
  join [newline] styling_lines.

(** The lines that the loop over [grouped_components.items()] adds for one
    item. *)
Definition group_lines (item : ComponentType * list PatentComponent)
  : list str :=
  let (comp_type, comps) := item in
  if 1 <? length comps
  then _generate_subgraph comp_type comps
  else map (fun comp => txt "    " ++ to_mermaid_node comp) comps.

(** The lines of the diagram, before they are joined. *)
Definition diagram_lines (components : list PatentComponent)
  (connections : list PatentConnection) (title : str) : list str :=
  let lines := [mermaid_config; empty; txt "flowchart TB"] in
  let lines :=
    lines ++ [ txt "    TITLE[" ++ [dquote] ++ title ++ [dquote] ++ txt "]";
               empty ] in
  let grouped_components := _group_components_by_type components in
  let lines := lines ++ flat_map group_lines grouped_components in
  let lines := lines ++ [empty] in
  let lines :=
    lines ++ map (fun conn => txt "    " ++ to_mermaid_connection conn) connections in
  lines ++ [empty; _generate_styling components].

(** [generate_diagram] *)
Definition generate_diagram (components : list PatentComponent)
  (connections : list PatentConnection) (title : str) : str :=
  join [newline] (diagram_lines components connections title).

End MermaidGenerator.

Import PatentClaimsParser MermaidGenerator.

(** * Vocabulary of the properties *)

(** One step of the keyword scan on an occurrence and its type. *)
Definition step (st : list PatentComponent * Z) (tm : ComponentType * str)
  : list PatentComponent * Z :=
  scan_step (fst tm) st (snd tm).

(** The reference numbers 10, 12, 14, ... *)
Definition even_ids (n : nat) : list Z :=
  map (fun i => (10 + 2 * Z.of_nat i)%Z) (seq 0 n).

(** What the scan keeps true of [(components, reference_counter)]: the
    numbers handed out so far are 10, 12, ... in order, the counter is the
    next one, no two names agree once lower-cased, and every type is a key
    of [component_patterns]. *)
Record scan_inv (st : list PatentComponent * Z) : Prop := {
  inv_ids : map reference_num (fst st) = even_ids (length (fst st));
  inv_counter : snd st = (10 + 2 * Z.of_nat (length (fst st)))%Z;
  inv_names : NoDup (map (fun c => lower (name c)) (fst st));
  inv_types : Forall (fun c => In (component_type c) (map fst component_patterns))
                     (fst st)
}.

(** [p] occurs in [x]. *)
Definition occurs_in (p x : str) : Prop := exists pre post, x = pre ++ p ++ post.

(** An item of the pattern table matches a name when one of its patterns
    occurs in the lower-cased name. *)
Definition item_matches (component_name : str) (item : ComponentType * list str)
  : Prop :=
  exists pattern, In pattern (snd item) /\ occurs_in pattern (lower component_name).

(** The distinct types of a list, in the order of their first occurrence. *)
Fixpoint first_seen (ts : list ComponentType) : list ComponentType :=
  match ts with
  | [] => []
  | t :: ts' => t :: filter (fun u => negb (ComponentType_eqb u t)) (first_seen ts')
  end.

(** The component has the type [t]. *)
Definition has_type (t : ComponentType) (c : PatentComponent) : bool :=
  ComponentType_eqb (component_type c) t.

(** One group per type in first-seen order, with the components of that
    type in the order of the list. *)
Definition groups_by_type (components : list PatentComponent)
  : dict ComponentType (list PatentComponent) :=
  map (fun t => (t, filter (has_type t) components))
      (first_seen (map component_type components)).

(** A labelled sub-region: the opening line, the direction, the title node,
    one node per member, the edge from the title node to the first member,
    the closing line and a blank line. *)
Definition sub_region (comp_type : ComponentType)
  (members : list PatentComponent) (first : PatentComponent) : list str :=
  let region := txt (Enum.name comp_type) ++ txt "_SYS" in
  [ txt "    subgraph " ++ region ++ txt " [" ++ [dquote] ++ txt " " ++ [dquote]
      ++ txt "]";
    txt "        direction TB";
    txt "        " ++ region ++ txt "_TITLE[" ++ [dquote]
      ++ txt (Enum.name comp_type) ++ txt " SYSTEM" ++ [dquote] ++ txt "]" ]
  ++ map (fun comp => txt "        " ++ to_mermaid_node comp) members
  ++ [ txt "        " ++ region ++ txt "_TITLE ~~~ " ++ COMP (reference_num first);
       txt "    end";
       empty ].

(** A node on its own at the top level. *)
Definition top_level_node (comp : PatentComponent) : list str :=
  [txt "    " ++ to_mermaid_node comp].

(** The character before the position reached after [w], when [prev] was
    the character before [w]. *)
Definition last_char (prev : option ascii) (w : str) : option ascii :=
  fold_left (fun _ c => Some c) w prev.

(** [matches ic r prev w rest gs]: the pattern [r] matches the text [w]
    when [prev] is the character before it and [rest] the text after it
    (both matter to [\b] only), and closes the groups [gs] on the way.  The
    relation says which texts a pattern matches, not which one the matcher
    prefers. *)
Inductive matches (ic : bool)
  : regex -> option ascii -> str -> str -> list str -> Prop :=
| M_Eps prev rest :
    matches ic Eps prev [] rest []
| M_Chr cs c prev rest :
    cset_mem ic cs c = true ->
    matches ic (Chr cs) prev [c] rest []
| M_Rep greedy lo cs prev w rest :
    lo <= length w ->
    Forall (fun c => cset_mem ic cs c = true) w ->
    matches ic (Rep greedy lo cs) prev w rest []
| M_WordB prev rest :
    xorb (is_word_opt prev) (is_word_opt (hd_error rest)) = true ->
    matches ic WordB prev [] rest []
| M_Group r prev w rest gs :
    matches ic r prev w rest gs ->
    matches ic (Group r) prev w rest (gs ++ [w])
| M_Seq r1 r2 prev w1 w2 rest gs1 gs2 :
    matches ic r1 prev w1 (w2 ++ rest) gs1 ->
    matches ic r2 (last_char prev w1) w2 rest gs2 ->
    matches ic (Seq r1 r2) prev (w1 ++ w2) rest (gs1 ++ gs2).

(** [linked name1 pattern name2 text]: somewhere in the text stands
    [name1], then on the same line [pattern], then on the same line
    [name2], each in any case. *)
Definition linked (name1 pattern name2 text : str) : Prop :=
  exists pre a m1 b m2 c post,
    text = pre ++ a ++ m1 ++ b ++ m2 ++ c ++ post /\
    lower a = lower name1 /\ ~ In newline m1 /\
    lower b = lower pattern /\ ~ In newline m2 /\
    lower c = lower name2.

(** The pairs [(l[i], l[j])] with [i < j], in the order of the two loops. *)
Fixpoint ordered_pairs (A : Type) (l : list A) : list (A * A) :=
  match l with
  | [] => []
  | x :: l' => map (pair x) l' ++ ordered_pairs l'
  end.





(** The text consists of letters and whitespace. *)
Definition plain_text (x : str) : bool :=
  forallb (fun c => Char.is_alpha c || Char.is_space c) x.

(** The items of the dict display of [component_patterns] as the program
    text writes them, one per attribute, before the dict merges the items
    whose keys are one member. *)
Definition declared_patterns : list (ComponentType * list str) :=
  [ (PROCESS,
      map txt ["processing unit"; "processor"; "processing system";
               "computing device"; "processing module"]%string);
    (DATABASE,
      map txt ["database"; "data store"; "storage system"; "memory";
               "data repository"; "storage device"]%string);
    (CONTROLLER,
      map txt ["controller"; "control unit"; "control system";
               "control module"; "control device"]%string);
    (INTERFACE,
      map txt ["interface"; "user interface"; "communication interface";
               "network interface"; "input interface"]%string);
    (SENSOR,
      map txt ["sensor"; "detector"; "monitoring device";
               "measurement device"; "input device"]%string);
    (DISPLAY,
      map txt ["display"; "screen"; "monitor"; "output device";
               "visual display"; "user display"]%string) ].

(** The classifier as the specification words it: the categories in their
    declared order, the first one with a pattern that occurs in the
    lower-cased name, and [PROCESS] when there is none. *)
Definition classify_in_declared_order (component_name : str) : ComponentType :=
  match find (fun item =>
                existsb (fun pattern => contains pattern (lower component_name))
                        (snd item))
             declared_patterns with
  | Some (comp_type, _) => comp_type
  | None => PROCESS
  end.

(** The lines of a text, as [str.split] gives them at the line feeds. *)
Fixpoint lines_of (x : str) : list str :=
  match x with
  | [] => [[]]
  | c :: x' =>
      if Ascii.eqb c newline then [] :: lines_of x'
      else match lines_of x' with
           | line :: rest => (c :: line) :: rest
           | [] => [[c]]
           end
  end.

(** The number of lines of a text that begin with [p]. *)
Definition count_lines (p : str) (x : str) : nat :=
  length (filter (startswith p) (lines_of x)).

(** ** Vocabulary of the further properties *)

(** The phrase [x] is written in the pattern table under the type [t]. *)
Definition registered (t : ComponentType) (x : str) : Prop :=
  exists item, In item component_patterns /\ fst item = t /\ In x (snd item).

(** The keyword phrases of the pattern table, all types together. *)
Definition keywords : list str := flat_map snd component_patterns.

(** Two components that differ in the case of their names at most. *)
Definition same_up_to_case (c1 c2 : PatentComponent) : Prop :=
  lower (name c1) = lower (name c2) /\ reference_num c1 = reference_num c2.

(** The labels that a relationship can carry. *)
Definition relationship_labels : list str :=
  map txt ["Connected To"; "Coupled To"; "In Communication With";
           "Operatively Connected"; "Electrically Connected";
           "Configured To Receive"; "Configured To Send";
           "Transmits To"; "Receives From"]%string.

(** A letter or a whitespace character: what [[a-zA-Z\s]] accepts. *)
Definition plain_char (c : ascii) : bool := Char.is_alpha c || Char.is_space c.

(** No letter and no whitespace stands at this place (or no character at
    all). *)
Definition not_plain (c : option ascii) : Prop :=
  match c with
  | Some a => plain_char a = false
  | None => True
  end.

(** A citation standing in a text: a run [g1] of letters and whitespace,
    whitespace [ws], and a run [g2] of digits in parentheses. *)
Definition citation_at (text pre g1 ws g2 post : str) : Prop :=
  text = pre ++ g1 ++ ws ++ txt "(" ++ g2 ++ txt ")" ++ post /\
  g1 <> [] /\ forallb plain_char g1 = true /\
  forallb Char.is_space ws = true /\
  g2 <> [] /\ forallb Char.is_digit g2 = true.

(** The text has a citation somewhere. *)
Definition has_citation (text : str) : Prop :=
  exists pre g1 ws g2 post, citation_at text pre g1 ws g2 post.

(** [w] stands in the text as a whole word: between [pre] and [post], with
    no word character right before it and none right after it. *)
Definition whole_word_at (text pre w post : str) : Prop :=
  text = pre ++ w ++ post /\
  is_word_opt (last_char None pre) = false /\
  is_word_opt (hd_error post) = false.

(** The text begins with a letter. *)
Definition head_alpha (x : str) : bool :=
  match x with
  | a :: _ => Char.is_alpha a
  | [] => false
  end.

(** The node of the component stands on a line of its own, at one of the
    two indentations that the renderer uses. *)
Definition node_declared (c : PatentComponent) (lines : list str) : Prop :=
  In (txt "    " ++ to_mermaid_node c) lines \/
  In (txt "        " ++ to_mermaid_node c) lines.

(** The node text of the branch that [to_mermaid_node] has for
    [ComponentType.DISPLAY]. *)
Definition display_node (self : PatentComponent) : str :=
  COMP (reference_num self) ++ txt "[/" ++ [dquote]
    ++ (name self ++ txt " " ++ str_of_int (reference_num self))
    ++ [dquote] ++ txt "/]".

(** The place of a type among the keys of [component_patterns]. *)
Definition table_rank (t : ComponentType) : nat :=
  match t with
  | PROCESS => 0
  | DATABASE => 1
  | INTERFACE => 2
  | _ => 3
  end.

(** The character at a place, up to letter case. *)
Definition opt_lower (c : option ascii) : option ascii :=
  option_map Char.to_lower c.

(** Two outcomes of a match attempt that agree up to letter case: both
    fail, or both match texts that agree once lower-cased. *)
Definition same_outcome (o o' : option match_obj) : Prop :=
  match o, o' with
  | Some m, Some m' => lower (fst m) = lower (fst m')
  | None, None => True
  | _, _ => False
  end.

(** Two keyword occurrences of the same type that agree up to case. *)
Definition same_occurrence (tm tm' : ComponentType * str) : Prop :=
  fst tm = fst tm' /\ lower (snd tm) = lower (snd tm').

(** The text that [to_mermaid_node] writes into a node. *)
Definition display_name (self : PatentComponent) : str :=
  name self ++ txt " " ++ str_of_int (reference_num self).

(** A character with no meaning of its own in a node of a diagram: a
    letter, a whitespace character or a digit. *)
Definition label_char (c : ascii) : bool :=
  Char.is_alpha c || Char.is_space c || Char.is_digit c.

(** Neither the first nor the last character of the text is whitespace. *)
Definition trimmed (x : str) : Prop :=
  (forall a y, x = a :: y -> Char.is_space a = false) /\
  (forall a y, x = y ++ [a] -> Char.is_space a = false).

(** [int] returns on every number that the first loop of
    [_extract_components] converts: the loop runs to its end. *)
Definition citations_convert (text : str) : bool :=
  forallb (fun m => int_returns (snd m)) (findall2 false component_pattern text).

(** The brackets that open the shape of a node. *)
Definition opens_shape (c : ascii) : bool :=
  Ascii.eqb c "[" || Ascii.eqb c "(" || Ascii.eqb c "{".

(** The identifier of a node: the text before the bracket that opens its
    shape. *)
Fixpoint node_id (node : str) : str :=
  match node with
  | [] => []
  | c :: node' => if opens_shape c then [] else c :: node_id node'
  end.

(** * Properties *)

Lemma str_eqb_eq (a b : str) : str_eqb a b = true <-> a = b.
Proof.
  unfold str_eqb. destruct (list_eq_dec ascii_dec a b); split; congruence.
Qed.

(** ** The taxonomy *)

(** The class body creates exactly the six members of [ComponentType], under
    the names of [Enum.name]. *)
Lemma enum_members :
  Enum.first_bindings [] Enum.class_body
  = map (fun t => (Enum.name t, Enum.value t)) Enum.members.
Proof. reflexivity. Qed.

Lemma enum_aliases :
  Enum.attribute "STORAGE" = Some STORAGE /\
  Enum.attribute "CONTROLLER" = Some CONTROLLER /\
  Enum.attribute "SENSOR" = Some SENSOR /\
  Enum.attribute "DISPLAY" = Some DISPLAY /\
  Enum.attribute "PROCESS" = Some PROCESS /\
  Enum.attribute "DATABASE" = Some DATABASE /\
  Enum.attribute "INTERFACE" = Some INTERFACE.
Proof. repeat split. Qed.

Lemma ComponentType_eqb_eq (a b : ComponentType) :
  ComponentType_eqb a b = true <-> a = b.
Proof. destruct a, b; simpl; split; congruence. Qed.

Lemma ComponentType_eqb_refl (a : ComponentType) : ComponentType_eqb a a = true.
Proof. now destruct a. Qed.

(** The dict that the display of [component_patterns] evaluates to: three
    keys, each with the list of the last item written under it. *)
Lemma component_patterns_value :
  component_patterns
  = [ (PROCESS,
        map txt ["controller"; "control unit"; "control system";
                 "control module"; "control device"]%string);
      (DATABASE,
        map txt ["database"; "data store"; "storage system"; "memory";
                 "data repository"; "storage device"]%string);
      (INTERFACE,
        map txt ["display"; "screen"; "monitor"; "output device";
                 "visual display"; "user display"]%string) ].
Proof. reflexivity. Qed.

(** ** The keyword scan as one loop *)

Lemma fold_left_flat_map (A B C : Type) (f : A -> C -> A) (g : B -> list C)
  (l : list B) (a : A) :
  fold_left f (flat_map g l) a
  = fold_left (fun acc b => fold_left f (g b) acc) l a.
Proof.
  revert a. induction l as [|b l IH]; intro a; simpl.
  - reflexivity.
  - now rewrite fold_left_app, IH.
Qed.

Lemma fold_left_map (A B C : Type) (f : A -> C -> A) (g : B -> C)
  (l : list B) (a : A) :
  fold_left f (map g l) a = fold_left (fun acc b => f acc (g b)) l a.
Proof.
  revert a. induction l as [|b l IH]; intro a; simpl; auto.
Qed.

Lemma fold_left_ext (A B : Type) (f g : A -> B -> A) (l : list B) (a : A) :
  (forall x y, f x y = g x y) -> fold_left f l a = fold_left g l a.
Proof.
  intro H. revert a. induction l as [|b l IH]; intro a; simpl.
  - reflexivity.
  - now rewrite H, IH.
Qed.

Lemma keyword_scan_fold (text : str) (st : list PatentComponent * Z) :
  keyword_scan text st = fold_left step (keyword_matches text) st.
Proof.
  unfold keyword_scan, keyword_matches.
  rewrite fold_left_flat_map.
  apply fold_left_ext. intros st1 item.
  rewrite fold_left_flat_map. unfold scan_type.
  apply fold_left_ext. intros st2 pattern.
  rewrite fold_left_map. reflexivity.
Qed.

(** ** Characters and case *)

Ltac each_char c := destruct c as [[] [] [] [] [] [] [] []]; vm_compute; auto.

Lemma to_lower_idem (c : ascii) :
  Char.to_lower (Char.to_lower c) = Char.to_lower c.
Proof. each_char c. Qed.

Lemma to_lower_upper (c : ascii) :
  Char.to_lower (Char.to_upper c) = Char.to_lower c.
Proof. each_char c. Qed.

Lemma lower_idem (x : str) : lower (lower x) = lower x.
Proof.
  unfold lower. rewrite map_map. apply map_ext. intro c. apply to_lower_idem.
Qed.

Lemma lower_title_from (b : bool) (x : str) : lower (title_from b x) = lower x.
Proof.
  revert b. induction x as [|c x IH]; intro b; simpl.
  - reflexivity.
  - destruct (Char.is_alpha c); simpl; rewrite IH; f_equal.
    destruct b; [apply to_lower_idem | apply to_lower_upper].
Qed.

(** Title-casing a text does not change what it is once lower-cased. *)
Lemma lower_title (x : str) : lower (title x) = lower x.
Proof. apply lower_title_from. Qed.

(** ** The state of the keyword scan *)

Lemma even_ids_snoc (n : nat) :
  even_ids (S n) = even_ids n ++ [(10 + 2 * Z.of_nat n)%Z].
Proof. unfold even_ids. now rewrite seq_S, map_app. Qed.

Lemma even_ids_length (n : nat) : length (even_ids n) = n.
Proof. unfold even_ids. now rewrite length_map, length_seq. Qed.

Lemma even_ids_nth (n i : nat) (z : Z) :
  nth_error (even_ids n) i = Some z -> z = (10 + 2 * Z.of_nat i)%Z.
Proof.
  unfold even_ids. intro H.
  rewrite nth_error_map in H.
  destruct (nth_error (seq 0 n) i) as [j|] eqn:E; simpl in H; [|discriminate].
  assert (i < length (seq 0 n)) as L by (apply nth_error_Some; congruence).
  rewrite length_seq in L.
  rewrite (nth_error_nth' (seq 0 n) 0) in E by now rewrite length_seq.
  rewrite seq_nth in E by assumption. simpl in E.
  injection E as <-. now injection H as <-.
Qed.

Lemma even_ids_NoDup (n : nat) : NoDup (even_ids n).
Proof.
  unfold even_ids. apply Injective_map_NoDup.
  - intros i j H. lia.
  - apply seq_NoDup.
Qed.

Lemma scan_inv_init : scan_inv ([], 10%Z).
Proof. split; simpl; auto using NoDup_nil. Qed.

Lemma existsb_name_false (cs : list PatentComponent) (m : str) :
  existsb (fun comp => str_eqb (lower (name comp)) (lower m)) cs = false ->
  ~ In (lower m) (map (fun c => lower (name c)) cs).
Proof.
  intros H Hin. apply in_map_iff in Hin. destruct Hin as [c [E Hc]].
  assert (existsb (fun comp => str_eqb (lower (name comp)) (lower m)) cs = true).
  { apply existsb_exists. exists c. split; [assumption|]. now apply str_eqb_eq. }
  congruence.
Qed.

Lemma scan_step_inv (t : ComponentType) (st : list PatentComponent * Z) (m : str) :
  In t (map fst component_patterns) -> scan_inv st -> scan_inv (scan_step t st m).
Proof.
  intros Ht [Hids Hcnt Hnames Htypes]. destruct st as [cs n].
  cbn [fst snd] in *. unfold scan_step.
  destruct (existsb _ cs) eqn:E.
  - split; assumption.
  - split; cbn [fst snd].
    + rewrite map_app, length_app, Nat.add_1_r, even_ids_snoc.
      cbn [map reference_num PatentComponent_]. now rewrite Hids, Hcnt.
    + rewrite length_app, Nat.add_1_r. cbn [length]. lia.
    + rewrite map_app. cbn [map name PatentComponent_]. rewrite lower_title.
      apply NoDup_app; [assumption | repeat constructor; intros [] | ].
      intros x Hx [Hm|[]]. subst x.
      now apply (existsb_name_false cs m).
    + apply Forall_app. split; [assumption|].
      constructor; [exact Ht | constructor].
Qed.

Lemma keyword_matches_types (text : str) (tm : ComponentType * str) :
  In tm (keyword_matches text) -> In (fst tm) (map fst component_patterns).
Proof.
  unfold keyword_matches. intro H.
  apply in_flat_map in H. destruct H as [item [Hitem H]].
  apply in_flat_map in H. destruct H as [pattern [_ H]].
  apply in_map_iff in H. destruct H as [m [E _]]. subst tm. cbn [fst].
  now apply in_map.
Qed.

Lemma fold_step_inv (l : list (ComponentType * str)) (st : list PatentComponent * Z) :
  (forall tm, In tm l -> In (fst tm) (map fst component_patterns)) ->
  scan_inv st -> scan_inv (fold_left step l st).
Proof.
  revert st. induction l as [|tm l IH]; intros st Hl Hst; simpl.
  - assumption.
  - apply IH.
    + intros tm' H. apply Hl. now right.
    + apply scan_step_inv; [apply Hl; now left | assumption].
Qed.

Lemma keyword_scan_inv (text : str) : scan_inv (keyword_scan text ([], 10%Z)).
Proof.
  rewrite keyword_scan_fold.
  apply fold_step_inv; [apply keyword_matches_types | apply scan_inv_init].
Qed.

(** The two branches of [_extract_components]. *)
Lemma extract_fallback (text : str) :
  cited_components text = [] ->
  _extract_components text = fst (keyword_scan text ([], 10%Z)).
Proof. unfold _extract_components. now intros ->. Qed.

Lemma extract_cited (text : str) :
  cited_components text <> [] -> _extract_components text = cited_components text.
Proof.
  unfold _extract_components. intro H.
  destruct (cited_components text); [congruence | reflexivity].
Qed.

(** ** Types of the extracted components *)

Lemma classify_in_table (component_name : str) :
  In (_classify_component component_name) (map fst component_patterns).
Proof.
  unfold _classify_component.
  destruct (find _ component_patterns) as [[t ps]|] eqn:E.
  - apply find_some in E. destruct E as [E _].
    change t with (fst (t, ps)). now apply in_map.
  - rewrite component_patterns_value. simpl. auto.
Qed.

(** Whatever the strategy, a component gets one of the three keys of
    [component_patterns]. *)
Lemma extract_components_types (text : str) (c : PatentComponent) :
  In c (_extract_components text) ->
  In (component_type c) [PROCESS; DATABASE; INTERFACE].
Proof.
  change [PROCESS; DATABASE; INTERFACE] with (map fst component_patterns).
  unfold _extract_components.
  destruct (cited_components text) as [|c0 cs] eqn:E.
  - intro H. pose proof (inv_types (keyword_scan_inv text)) as F.
    rewrite Forall_forall in F. now apply F.
  - rewrite <- E. unfold cited_components. intro H.
    apply in_map_iff in H. destruct H as [m [<- _]]. cbn [component_type PatentComponent_].
    apply classify_in_table.
Qed.

(** In the keyword scan no two components have the same name up to case. *)
Lemma keyword_scan_names_distinct (text : str) :
  cited_components text = [] ->
  NoDup (map (fun c => lower (name c)) (_extract_components text)).
Proof.
  intro H. rewrite (extract_fallback _ H). apply (inv_names (keyword_scan_inv text)).
Qed.

(** A later occurrence of a name that is already known, in whatever case,
    leaves the state of the scan as it is. *)
Lemma scan_step_known (t : ComponentType) (cs : list PatentComponent) (n : Z)
  (m : str) :
  In (lower m) (map (fun c => lower (name c)) cs) ->
  scan_step t (cs, n) m = (cs, n).
Proof.
  intro H. unfold scan_step.
  destruct (existsb _ cs) eqn:E; [reflexivity|].
  now apply existsb_name_false in E.
Qed.

(** When every keyword occurrence of a text is a case variant of the first
    one, the keyword scan yields one component: the first occurrence in
    title case, numbered 10, with the type the keyword is registered under. *)
Lemma keyword_scan_one_word (text : str) (t : ComponentType) (m : str)
  (rest : list (ComponentType * str)) :
  cited_components text = [] ->
  keyword_matches text = (t, m) :: rest ->
  Forall (fun tm => lower (snd tm) = lower m) rest ->
  _extract_components text = [PatentComponent_ (title m) 10 t].
Proof.
  intros Hc Hk Hrest. rewrite (extract_fallback _ Hc), keyword_scan_fold, Hk.
  cbn [fold_left step fst snd scan_step existsb app]. clear Hk.
  induction Hrest as [|tm rest Htm _ IH]; [reflexivity|].
  cbn [fold_left]. unfold step at 2. rewrite scan_step_known; [exact IH|].
  cbn [map name PatentComponent_]. rewrite lower_title. now left.
Qed.

(** The deduplication at work on a word that is a keyword of the table. *)
Lemma monitor_variants :
  _extract_components (txt "Monitor... monitor... MONITOR")
  = [PatentComponent_ (txt "Monitor") 10 INTERFACE].
Proof.
  apply (@keyword_scan_one_word _ INTERFACE (txt "Monitor")
           [(INTERFACE, txt "monitor"); (INTERFACE, txt "MONITOR")]).
  - vm_compute. reflexivity.
  - vm_compute. reflexivity.
  - repeat constructor.
Qed.

(** ** Claims about the extraction *)

(** C1.  For the text [processor (10) is connected to database (12)] the
    specification expects the components processor 10 and database 12 and a
    relationship between them.  The citation pattern takes every letter and
    blank before a parenthesised number from where the previous citation
    ended, so the second component is named [is connected to database]; the
    link pattern then asks for that name after the connector phrase and
    finds none, and no relationship comes out. *)
Theorem C1_parse_claims_example :
  parse_claims (txt "processor (10) is connected to database (12)")
  = ([ PatentComponent_ (txt "processor") 10 PROCESS;
       PatentComponent_ (txt "is connected to database") 12 DATABASE ],
     []).
Proof. vm_compute. reflexivity. Qed.

(** C3.  When the text has no citation, the reference numbers of the
    components are pairwise distinct, the first is 10, and every next one in
    discovery order is the previous one plus 2. *)
Theorem C3_fallback_reference_ids (text : str) :
  cited_components text = [] ->
  let components := _extract_components text in
  NoDup (map reference_num components) /\
  (forall c, nth_error components 0 = Some c -> reference_num c = 10%Z) /\
  (forall i c1 c2,
      nth_error components i = Some c1 ->
      nth_error components (S i) = Some c2 ->
      reference_num c2 = (reference_num c1 + 2)%Z).
Proof.
  intros H components. subst components. rewrite (extract_fallback _ H).
  pose proof (inv_ids (keyword_scan_inv text)) as Hids.
  set (cs := fst (keyword_scan text ([], 10%Z))) in *.
  assert (forall i c, nth_error cs i = Some c ->
                      reference_num c = (10 + 2 * Z.of_nat i)%Z) as Hnth.
  { intros i c Hc. apply (even_ids_nth (length cs)).
    rewrite <- Hids, nth_error_map, Hc. reflexivity. }
  split; [| split].
  - rewrite Hids. apply even_ids_NoDup.
  - intros c Hc. now rewrite (Hnth 0%nat c Hc).
  - intros i c1 c2 H1 H2. rewrite (Hnth _ _ H1), (Hnth _ _ H2). lia.
Qed.

Lemma C3_fallback_reference_ids_witness :
  let text := txt "the controller stores data in a memory and drives a display" in
  cited_components text = [] /\
  map reference_num (_extract_components text) = [10; 12; 14]%Z /\
  NoDup (map reference_num (_extract_components text)).
Proof.
  intro text.
  assert (cited_components text = []) as H by (vm_compute; reflexivity).
  split; [exact H | split; [vm_compute; reflexivity|]].
  exact (proj1 (C3_fallback_reference_ids text H)).
Defined.

(** C6.  A text without a citation and without a whole-word occurrence of a
    keyword, the empty text among them, gives an empty list of components
    and an empty list of relationships. *)
Theorem C6_nothing_found (text : str) :
  findall2 false component_pattern text = [] ->
  keyword_matches text = [] ->
  parse_claims text = ([], []).
Proof.
  intros Hc Hk. unfold parse_claims.
  assert (_extract_components text = []) as ->.
  { unfold _extract_components, cited_components. rewrite Hc. cbn [map].
    now rewrite keyword_scan_fold, Hk. }
  reflexivity.
Qed.

Lemma C6_nothing_found_witness :
  parse_claims empty = ([], []) /\
  parse_claims (txt "A method of treating water, comprising a filter [3].") = ([], []).
Proof.
  split; apply C6_nothing_found; vm_compute; reflexivity.
Defined.

(** C7.  The specification expects one component from the text
    [Sensor... sensor... SENSOR].  The list with [sensor] is written under
    the key [SENSOR], which is the member [INTERFACE]; the item written
    under [DISPLAY], the same member, replaces it, so [sensor] is no keyword
    and the text yields no component at all. *)
Theorem C7_sensor_variants :
  keyword_matches (txt "Sensor... sensor... SENSOR") = [] /\
  parse_claims (txt "Sensor... sensor... SENSOR") = ([], []).
Proof. split; vm_compute; reflexivity. Qed.

(** C10.  The specification expects [STORAGE] never to be assigned.
    [STORAGE] is bound to the value of [DATABASE] and so names the same
    member: the type of a cited database is the one [ComponentType.STORAGE]
    denotes, and the six names the claim lists denote three members. *)
Theorem C10_storage_is_assigned :
  Enum.attribute "STORAGE" = Enum.attribute "DATABASE" /\
  map (fun c => Some (component_type c))
      (fst (parse_claims (txt "database (12)")))
  = [Enum.attribute "STORAGE"] /\
  map Enum.attribute
      ["PROCESS"; "DATABASE"; "CONTROLLER"; "INTERFACE"; "SENSOR"; "DISPLAY"]%string
  = map Some [PROCESS; DATABASE; PROCESS; INTERFACE; INTERFACE; INTERFACE].
Proof. repeat split. Qed.

(** ** The classifier *)

Lemma startswith_iff (p x : str) :
  startswith p x = true <-> exists post, x = p ++ post.
Proof.
  revert x. induction p as [|a p IH]; intro x; simpl.
  - split; [intros _; now exists x | reflexivity].
  - destruct x as [|b x].
    + split; [discriminate | intros [post H]; discriminate].
    + rewrite andb_true_iff, Ascii.eqb_eq, IH. split.
      * intros [-> [post ->]]. now exists post.
      * intros [post H]. injection H as -> ->. split; [reflexivity | now exists post].
Qed.

Lemma contains_iff (p x : str) : contains p x = true <-> occurs_in p x.
Proof.
  unfold occurs_in. induction x as [|b x IH]; simpl.
  - rewrite orb_false_r, startswith_iff. split.
    + intros [post H]. now exists [], post.
    + intros [pre [post H]]. destruct pre; [now exists post | discriminate].
  - rewrite orb_true_iff, startswith_iff, IH. split.
    + intros [[post H] | [pre [post H]]].
      * now exists [], post.
      * exists (b :: pre), post. simpl. now rewrite H.
    + intros [pre [post H]]. destruct pre as [|c pre].
      * left. now exists post.
      * right. injection H as _ H. now exists pre, post.
Qed.

Lemma item_matches_iff (component_name : str) (item : ComponentType * list str) :
  existsb (fun pattern => contains pattern (lower component_name)) (snd item) = true
  <-> item_matches component_name item.
Proof.
  unfold item_matches. rewrite existsb_exists.
  split; intros [p [H1 H2]]; exists p; split; try assumption; now apply contains_iff.
Qed.

Lemma find_first (A : Type) (f : A -> bool) (before after : list A) (x : A) :
  f x = true -> (forall y, In y before -> f y = false) ->
  find f (before ++ x :: after) = Some x.
Proof.
  intros Hx. induction before as [|y before IH]; intro Hb; simpl.
  - now rewrite Hx.
  - rewrite (Hb y) by now left. apply IH. intros z Hz. apply Hb. now right.
Qed.

(** What [_classify_component] does on the dict that the program holds:
    it goes through the items of the dict in their order and returns the
    key of the first one that has a pattern occurring in the lower-cased
    name; when no pattern of the dict occurs in it, the result is
    [PROCESS]. *)
Lemma classify_first_match (component_name : str) :
  (forall before item after,
      component_patterns = before ++ item :: after ->
      item_matches component_name item ->
      (forall earlier, In earlier before -> ~ item_matches component_name earlier) ->
      _classify_component component_name = fst item) /\
  ((forall item, In item component_patterns -> ~ item_matches component_name item) ->
      _classify_component component_name = PROCESS).
Proof.
  unfold _classify_component. split.
  - intros before item after -> Hm Hb.
    rewrite (find_first _ before after item).
    + now destruct item.
    + now apply item_matches_iff.
    + intros y Hy. apply not_true_is_false. intro H.
      apply (Hb y Hy). now apply item_matches_iff.
  - intro Hnone.
    destruct (find _ component_patterns) as [[t ps]|] eqn:E; [|reflexivity].
    apply find_some in E. destruct E as [Hin H].
    exfalso. apply (Hnone _ Hin). now apply item_matches_iff.
Qed.

(** C4.  The specification expects the first category in declared order
    with a pattern in the name.  The program holds the dict of the declared
    items, in which the items written under [CONTROLLER], [SENSOR] and
    [DISPLAY] replace the lists of [PROCESS] and [INTERFACE], the members
    they are aliases of.  So [Memory Controller], which the declared order
    gives to [DATABASE] for [memory], is classified [PROCESS] for
    [controller]; and [sensor] and [user interface], which the declared
    order gives to the member [INTERFACE], match no pattern of the dict and
    fall to the default [PROCESS]. *)
Theorem C4_classify_declared_order :
  component_patterns = dict_display ComponentType_eqb declared_patterns /\
  classify_in_declared_order (txt "Memory Controller") = DATABASE /\
  _classify_component (txt "Memory Controller") = PROCESS /\
  classify_in_declared_order (txt "sensor") = SENSOR /\
  _classify_component (txt "sensor") = PROCESS /\
  classify_in_declared_order (txt "user interface") = INTERFACE /\
  _classify_component (txt "user interface") = PROCESS /\
  SENSOR <> PROCESS /\ INTERFACE <> PROCESS /\ DATABASE <> PROCESS.
Proof. repeat split; try (vm_compute; reflexivity); discriminate. Qed.

(** ** Relationships *)

Lemma str_of_int_inj (a b : Z) : str_of_int a = str_of_int b -> a = b.
Proof.
  unfold str_of_int. intro H.
  apply (f_equal string_of_list_ascii) in H.
  rewrite !string_of_list_ascii_of_string in H.
  apply (f_equal NilEmpty.int_of_string) in H.
  rewrite !NilEmpty.isi in H. injection H as H.
  now apply DecimalZ.to_int_inj.
Qed.

Lemma COMP_inj (a b : Z) : COMP a = COMP b -> a = b.
Proof.
  unfold COMP. intro H. apply app_inv_head in H. now apply str_of_int_inj.
Qed.

Lemma pair_connection_ends (text : str) (c1 c2 : PatentComponent)
  (conn : PatentConnection) :
  In conn (pair_connection text c1 c2) ->
  from_component conn = COMP (reference_num c1) /\
  to_component conn = COMP (reference_num c2).
Proof.
  unfold pair_connection. destruct (find _ relationship_patterns).
  - intros [<-|[]]. now split.
  - intros [].
Qed.

(** A connection comes from a pair of components, the first standing
    before the second in the list. *)
Lemma extract_relationships_ends (text : str) (cs : list PatentComponent)
  (conn : PatentConnection) :
  In conn (_extract_relationships text cs) ->
  exists i j c1 c2,
    i < j /\ nth_error cs i = Some c1 /\ nth_error cs j = Some c2 /\
    In conn (pair_connection text c1 c2).
Proof.
  induction cs as [|c cs IH]; simpl; [intros []|].
  intro H. apply in_app_or in H. destruct H as [H|H].
  - apply in_flat_map in H. destruct H as [c2 [Hin H]].
    apply In_nth_error in Hin. destruct Hin as [j Hj].
    exists 0, (S j), c, c2. repeat split; auto. lia.
  - destruct (IH H) as [i [j [c1 [c2 [Hij [Hi [Hj Hp]]]]]]].
    exists (S i), (S j), c1, c2. repeat split; auto. lia.
Qed.

(** C5, as amended.  The two ends of every relationship are the reference
    numbers of two components of the same result, the first standing
    before the second; the ends are equal exactly when the two components
    carry the same number, which the keyword scan excludes. *)
Theorem C5_relationship_endpoints (text : str) (conn : PatentConnection) :
  In conn (snd (parse_claims text)) ->
  exists i j c1 c2,
    i < j /\
    nth_error (fst (parse_claims text)) i = Some c1 /\
    nth_error (fst (parse_claims text)) j = Some c2 /\
    from_component conn = COMP (reference_num c1) /\
    to_component conn = COMP (reference_num c2) /\
    (from_component conn = to_component conn
       <-> reference_num c1 = reference_num c2) /\
    (cited_components text = [] -> from_component conn <> to_component conn).
Proof.
  unfold parse_claims. cbn [fst snd]. intro H.
  destruct (extract_relationships_ends _ _ _ H) as [i [j [c1 [c2 [Hij [Hi [Hj Hp]]]]]]].
  destruct (pair_connection_ends _ _ _ _ Hp) as [Hf Ht].
  exists i, j, c1, c2. repeat split; auto.
  - rewrite Hf, Ht. apply COMP_inj.
  - rewrite Hf, Ht. now intros ->.
  - intros Hc E. rewrite Hf, Ht in E. apply COMP_inj in E.
    pose proof (inv_ids (keyword_scan_inv text)) as Hids.
    rewrite <- (extract_fallback _ Hc) in Hids.
    assert (forall k c, nth_error (_extract_components text) k = Some c ->
                        reference_num c = (10 + 2 * Z.of_nat k)%Z) as Hnth.
    { intros k c Hc'. apply (even_ids_nth (length (_extract_components text))).
      rewrite <- Hids, nth_error_map, Hc'. reflexivity. }
    rewrite (Hnth _ _ Hi), (Hnth _ _ Hj) in E. lia.
Qed.

Lemma C5_relationship_endpoints_witness :
  let text := txt "processor (10), connected to, database (12)" in
  let conn := PatentConnection_ (COMP 10) (COMP 12) (txt "Connected To") in
  In conn (snd (parse_claims text)) /\
  exists i j c1 c2,
    i < j /\
    nth_error (fst (parse_claims text)) i = Some c1 /\
    nth_error (fst (parse_claims text)) j = Some c2 /\
    from_component conn = COMP (reference_num c1) /\
    to_component conn = COMP (reference_num c2) /\
    (from_component conn = to_component conn
       <-> reference_num c1 = reference_num c2) /\
    (cited_components text = [] -> from_component conn <> to_component conn).
Proof.
  intros text conn.
  assert (In conn (snd (parse_claims text))) as H by (vm_compute; now left).
  split; [exact H | exact (C5_relationship_endpoints text conn H)].
Defined.

(** C5, as stated, fails: two citations may carry the same number, and the
    relationship inferred between them has equal ends. *)
Lemma C5_self_loop_counterexample :
  ~ (forall conn,
       In conn (snd (parse_claims (txt "processor (10), connected to, database (10)"))) ->
       from_component conn <> to_component conn).
Proof.
  intro H.
  apply (H (PatentConnection_ (COMP 10) (COMP 10) (txt "Connected To"))).
  - vm_compute. now left.
  - reflexivity.
Qed.

(** ** Rendering *)

(** C8.  [generate_diagram] is deterministic: two calls with the same
    components, connections and title return the same text. *)
Theorem C8_generate_diagram_deterministic
  (components1 components2 : list PatentComponent)
  (connections1 connections2 : list PatentConnection) (title1 title2 : str) :
  components1 = components2 -> connections1 = connections2 -> title1 = title2 ->
  generate_diagram components1 connections1 title1
  = generate_diagram components2 connections2 title2.
Proof. intros -> -> ->. reflexivity. Qed.

Lemma C8_generate_diagram_deterministic_witness :
  let components := fst (parse_claims (txt "processor (10), connected to, database (12)")) in
  let connections := snd (parse_claims (txt "processor (10), connected to, database (12)")) in
  generate_diagram components connections (txt "PATENT SYSTEM DIAGRAM")
  = generate_diagram
      [ PatentComponent_ (txt "processor") 10 PROCESS;
        PatentComponent_ (txt "database") 12 DATABASE ]
      [ PatentConnection_ (COMP 10) (COMP 12) (txt "Connected To") ]
      (txt "PATENT SYSTEM" ++ txt " DIAGRAM").
Proof.
  intros components connections.
  apply C8_generate_diagram_deterministic; vm_compute; reflexivity.
Defined.

(** *** Dictionaries keyed by component type *)

Section DictFacts.
Variable V : Type.
Local Abbreviation get := (dict_get (V:=V) ComponentType_eqb).
Local Abbreviation set := (dict_set (V:=V) ComponentType_eqb).

Lemma dict_get_set_same (d : dict ComponentType V) (k : ComponentType) (v : V) :
  get (set d k v) k = Some v.
Proof.
  induction d as [|[k' v'] d IH]; simpl.
  - now rewrite ComponentType_eqb_refl.
  - destruct (ComponentType_eqb k k') eqn:E; simpl; rewrite E; auto.
Qed.

Lemma dict_set_set_same (d : dict ComponentType V) (k : ComponentType) (v v' : V) :
  set (set d k v) k v' = set d k v'.
Proof.
  induction d as [|[k1 v1] d IH]; simpl.
  - now rewrite ComponentType_eqb_refl.
  - destruct (ComponentType_eqb k k1) eqn:E; simpl; rewrite E; [reflexivity|].
    now rewrite IH.
Qed.

Variable f : ComponentType -> V.

Lemma dict_get_map_in (ks : list ComponentType) (k : ComponentType) :
  In k ks -> get (map (fun u => (u, f u)) ks) k = Some (f k).
Proof.
  induction ks as [|a ks IH]; simpl; [intros []|].
  destruct (ComponentType_eqb k a) eqn:E.
  - apply ComponentType_eqb_eq in E. now subst a.
  - intros [-> | H]; [now rewrite ComponentType_eqb_refl in E | auto].
Qed.

Lemma dict_get_map_notin (ks : list ComponentType) (k : ComponentType) :
  ~ In k ks -> get (map (fun u => (u, f u)) ks) k = None.
Proof.
  induction ks as [|a ks IH]; simpl; [reflexivity|]. intro H.
  destruct (ComponentType_eqb k a) eqn:E.
  - apply ComponentType_eqb_eq in E. subst a. tauto.
  - apply IH. tauto.
Qed.

Lemma dict_set_map_notin (ks : list ComponentType) (k : ComponentType) (v : V) :
  ~ In k ks ->
  set (map (fun u => (u, f u)) ks) k v = map (fun u => (u, f u)) ks ++ [(k, v)].
Proof.
  induction ks as [|a ks IH]; simpl; [reflexivity|]. intro H.
  destruct (ComponentType_eqb k a) eqn:E.
  - apply ComponentType_eqb_eq in E. subst a. tauto.
  - rewrite IH; tauto.
Qed.

Lemma dict_set_map_in (ks : list ComponentType) (k : ComponentType) (v : V) :
  NoDup ks -> In k ks ->
  set (map (fun u => (u, f u)) ks) k v
  = map (fun u => (u, if ComponentType_eqb u k then v else f u)) ks.
Proof.
  induction ks as [|a ks IH]; simpl; [intros _ []|].
  intros Hnd Hin. inversion Hnd as [|? ? Ha Hks]; subst.
  destruct (ComponentType_eqb k a) eqn:E.
  - apply ComponentType_eqb_eq in E. subst a.
    rewrite ComponentType_eqb_refl. f_equal.
    apply map_ext_in. intros u Hu.
    destruct (ComponentType_eqb u k) eqn:E'; [|reflexivity].
    apply ComponentType_eqb_eq in E'. now subst u.
  - destruct (ComponentType_eqb a k) eqn:E'.
    + apply ComponentType_eqb_eq in E'. subst a.
      now rewrite ComponentType_eqb_refl in E.
    + f_equal. apply IH; [assumption|].
      destruct Hin as [-> | Hin]; [now rewrite ComponentType_eqb_refl in E | assumption].
Qed.

End DictFacts.

(** *** Grouping by type, as the specification words it *)

Lemma first_seen_In (ts : list ComponentType) (t : ComponentType) :
  In t (first_seen ts) <-> In t ts.
Proof.
  induction ts as [|a ts IH]; simpl; [tauto|].
  rewrite filter_In, IH, negb_true_iff.
  destruct (ComponentType_eqb t a) eqn:E.
  - apply ComponentType_eqb_eq in E. subst. intuition congruence.
  - intuition.
Qed.

Lemma first_seen_NoDup (ts : list ComponentType) : NoDup (first_seen ts).
Proof.
  induction ts as [|a ts IH]; simpl; constructor.
  - rewrite filter_In, ComponentType_eqb_refl. simpl. intros [_ H]. discriminate.
  - now apply NoDup_filter.
Qed.

Lemma ComponentType_eq_dec (a b : ComponentType) : {a = b} + {a <> b}.
Proof. decide equality. Defined.

Lemma filter_app_last (A : Type) (p : A -> bool) (l : list A) (x : A) :
  filter p (l ++ [x]) = filter p l ++ (if p x then [x] else []).
Proof. now rewrite filter_app. Qed.

Lemma first_seen_snoc_notin (ts : list ComponentType) (t : ComponentType) :
  ~ In t ts -> first_seen (ts ++ [t]) = first_seen ts ++ [t].
Proof.
  induction ts as [|a ts IH]; simpl; [reflexivity|]. intro H.
  rewrite IH by tauto. rewrite filter_app_last.
  destruct (ComponentType_eqb t a) eqn:E.
  - apply ComponentType_eqb_eq in E. subst. tauto.
  - reflexivity.
Qed.

Lemma first_seen_snoc_in (ts : list ComponentType) (t : ComponentType) :
  In t ts -> first_seen (ts ++ [t]) = first_seen ts.
Proof.
  induction ts as [|a ts IH]; simpl; [intros []|]. intro H. f_equal.
  destruct (in_dec ComponentType_eq_dec t ts) as [Hin|Hout].
  - now rewrite IH.
  - destruct H as [-> | H]; [|contradiction].
    rewrite first_seen_snoc_notin by assumption.
    rewrite filter_app_last, ComponentType_eqb_refl. simpl. apply app_nil_r.
Qed.

(** *** The grouping of the program is the grouping of the specification *)

Lemma filter_has_type_none (cs : list PatentComponent) (t : ComponentType) :
  ~ In t (map component_type cs) -> filter (has_type t) cs = [].
Proof.
  induction cs as [|c cs IH]; simpl; [reflexivity|]. intro H.
  unfold has_type at 1. destruct (ComponentType_eqb (component_type c) t) eqn:E.
  - apply ComponentType_eqb_eq in E. tauto.
  - apply IH. tauto.
Qed.

Lemma group_step_groups (cs : list PatentComponent) (c : PatentComponent) :
  group_step (groups_by_type cs) c = groups_by_type (cs ++ [c]).
Proof.
  unfold group_step, groups_by_type. rewrite map_app. cbn [map].
  set (t := component_type c). set (ts := map component_type cs).
  destruct (in_dec ComponentType_eq_dec t ts) as [Hin|Hout].
  - rewrite first_seen_snoc_in by assumption.
    rewrite (dict_get_map_in (fun u => filter (has_type u) cs))
      by now apply first_seen_In.
    rewrite (dict_get_map_in (fun u => filter (has_type u) cs))
      by now apply first_seen_In.
    rewrite dict_set_map_in
      by (try apply first_seen_NoDup; now apply first_seen_In).
    apply map_ext. intro u. f_equal. rewrite filter_app_last.
    change (has_type u c) with (ComponentType_eqb t u).
    destruct (ComponentType_eqb u t) eqn:E.
    + apply ComponentType_eqb_eq in E. subst u.
      now rewrite ComponentType_eqb_refl.
    + destruct (ComponentType_eqb t u) eqn:E'.
      * apply ComponentType_eqb_eq in E'. subst u.
        now rewrite ComponentType_eqb_refl in E.
      * now rewrite app_nil_r.
  - rewrite first_seen_snoc_notin by assumption.
    rewrite (dict_get_map_notin (fun u => filter (has_type u) cs))
      by now rewrite first_seen_In.
    rewrite dict_get_set_same, dict_set_set_same.
    rewrite dict_set_map_notin by now rewrite first_seen_In.
    rewrite map_app. cbn [map app]. f_equal.
    + apply map_ext_in. intros u Hu. f_equal. rewrite filter_app_last.
      change (has_type u c) with (ComponentType_eqb t u).
      destruct (ComponentType_eqb t u) eqn:E.
      * apply ComponentType_eqb_eq in E. subst u.
        exfalso. apply Hout. now apply first_seen_In.
      * now rewrite app_nil_r.
    + rewrite filter_app_last.
      change (has_type t c) with (ComponentType_eqb t t).
      rewrite ComponentType_eqb_refl.
      now rewrite (filter_has_type_none cs t Hout).
Qed.

Lemma fold_group_step (cs done : list PatentComponent) :
  fold_left group_step cs (groups_by_type done) = groups_by_type (done ++ cs).
Proof.
  revert done. induction cs as [|c cs IH]; intro done; simpl.
  - now rewrite app_nil_r.
  - rewrite group_step_groups, IH, <- app_assoc. reflexivity.
Qed.

Lemma group_components_by_type_spec (components : list PatentComponent) :
  _group_components_by_type components = groups_by_type components.
Proof. apply (fold_group_step components []). Qed.

(** *** The regions of the diagram *)

Lemma group_lines_many (comp_type : ComponentType)
  (first second : PatentComponent) (rest : list PatentComponent) :
  group_lines (comp_type, first :: second :: rest)
  = sub_region comp_type (first :: second :: rest) first.
Proof.
  unfold group_lines, _generate_subgraph, sub_region. cbn [length Nat.ltb Nat.leb].
  rewrite <- !app_assoc. destruct comp_type; reflexivity.
Qed.

Lemma filter_all_out (A : Type) (p : A -> bool) (l : list A) :
  (forall x, In x l -> p x = false) -> filter p l = [].
Proof.
  induction l as [|x l IH]; simpl; intro H; [reflexivity|].
  rewrite (H x) by now left. apply IH. intros y Hy. apply H. now right.
Qed.

(** A duplicate-free list over two types that has the second of them
    reduces to that one when the first is filtered out. *)
Lemma filter_other (l : list ComponentType) (a b : ComponentType) :
  NoDup l -> (forall x, In x l -> x = a \/ x = b) -> a <> b -> In b l ->
  filter (fun u => negb (ComponentType_eqb u a)) l = [b].
Proof.
  induction l as [|x l IH]; simpl; [intros _ _ _ F; destruct F|].
  intros Hnd Hall Hab Hin. inversion Hnd as [|? ? Hx Hl]; subst.
  destruct (ComponentType_eqb x a) eqn:E; simpl.
  - apply ComponentType_eqb_eq in E. subst x.
    apply IH; auto. destruct Hin as [-> | Hin]; [congruence | assumption].
  - assert (x = b) as ->.
    { destruct (Hall x) as [-> | ->]; auto.
      now rewrite ComponentType_eqb_refl in E. }
    f_equal. apply filter_all_out. intros y Hy.
    destruct (Hall y) as [-> | ->]; auto.
    + now rewrite ComponentType_eqb_refl.
    + contradiction.
Qed.

Lemma first_seen_two (ts : list ComponentType) (t u : ComponentType) :
  t <> u -> (forall x, In x ts -> x = t \/ x = u) -> In t ts -> In u ts ->
  first_seen ts = [t; u] \/ first_seen ts = [u; t].
Proof.
  destruct ts as [|a ts]; [intros _ _ F; destruct F|]. intros Htu Hall Ht Hu. simpl.
  assert (forall x, In x (first_seen ts) -> x = t \/ x = u) as Hall'.
  { intros x Hx. apply Hall. right. now apply first_seen_In. }
  destruct (Hall a (or_introl eq_refl)) as [-> | ->]; [left | right]; f_equal.
  - apply filter_other; auto using first_seen_NoDup.
    apply first_seen_In. destruct Hu as [Hu|Hu]; [congruence | assumption].
  - apply filter_other; auto using first_seen_NoDup.
    + intros x Hx. destruct (Hall' x Hx); auto.
    + apply first_seen_In. destruct Ht as [Ht|Ht]; [congruence | assumption].
Qed.

Lemma has_type_In (cs : list PatentComponent) (t : ComponentType)
  (c : PatentComponent) :
  In c (filter (has_type t) cs) -> In t (map component_type cs).
Proof.
  intro H. apply filter_In in H. destruct H as [Hin Ht].
  apply ComponentType_eqb_eq in Ht. subst t. now apply in_map.
Qed.

(** What the renderer does with the types of the program: it groups the
    components by type, types in first-seen order and the members of a type
    in first-seen order, each type once; a type with more than one member
    is rendered as one sub-region, a type with one member as one top-level
    node. *)
Lemma render_groups (components : list PatentComponent)
  (connections : list PatentConnection) (title : str) :
  _group_components_by_type components = groups_by_type components /\
  NoDup (map fst (_group_components_by_type components)) /\
  diagram_lines components connections title
  = [ mermaid_config; empty; txt "flowchart TB";
      txt "    TITLE[" ++ [dquote] ++ title ++ [dquote] ++ txt "]"; empty ]
    ++ flat_map group_lines (_group_components_by_type components)
    ++ [empty]
    ++ map (fun conn => txt "    " ++ to_mermaid_connection conn) connections
    ++ [empty; _generate_styling components] /\
  (forall comp_type first second rest,
      group_lines (comp_type, first :: second :: rest)
      = sub_region comp_type (first :: second :: rest) first) /\
  (forall comp_type comp, group_lines (comp_type, [comp]) = top_level_node comp) /\
  (forall t u a b c d,
      t <> u ->
      (forall x, In x components -> component_type x = t \/ component_type x = u) ->
      filter (has_type t) components = [a; b; c] ->
      filter (has_type u) components = [d] ->
      flat_map group_lines (_group_components_by_type components)
      = sub_region t [a; b; c] a ++ top_level_node d
      \/ flat_map group_lines (_group_components_by_type components)
         = top_level_node d ++ sub_region t [a; b; c] a).
Proof.
  split; [apply group_components_by_type_spec|].
  split.
  { rewrite group_components_by_type_spec. unfold groups_by_type.
    rewrite map_map. cbn [fst]. rewrite map_id. apply first_seen_NoDup. }
  split.
  { unfold diagram_lines. now rewrite <- !app_assoc. }
  split; [apply group_lines_many|].
  split; [reflexivity|].
  intros t u a b c d Htu Hall Ht Hu.
  rewrite group_components_by_type_spec. unfold groups_by_type.
  destruct (@first_seen_two (map component_type components) t u Htu) as [E|E].
  - intros x Hx. apply in_map_iff in Hx. destruct Hx as [y [<- Hy]]. auto.
  - apply (@has_type_In components t a). rewrite Ht. now left.
  - apply (@has_type_In components u d). rewrite Hu. now left.
  - left. rewrite E. cbn [map flat_map]. rewrite Ht, Hu, app_nil_r.
    now rewrite group_lines_many.
  - right. rewrite E. cbn [map flat_map]. rewrite Ht, Hu, app_nil_r.
    now rewrite group_lines_many.
Qed.

(** C9.  The specification expects one sub-region with three nodes and one
    top-level node from three components of one category and one of
    another.  [SENSOR] and [DISPLAY] are one member of [ComponentType], so
    three sensors and a display are one group: [generate_diagram] draws one
    sub-region, named after [INTERFACE], with four nodes and no top-level
    node.  Three databases and a processor, whose types are two members,
    are drawn as the specification says. *)
Theorem C9_render_aliased_categories :
  let s1 := PatentComponent_ (txt "Thermal Sensor") 10 SENSOR in
  let s2 := PatentComponent_ (txt "Pressure Sensor") 12 SENSOR in
  let s3 := PatentComponent_ (txt "Flow Sensor") 14 SENSOR in
  let d := PatentComponent_ (txt "Status Display") 16 DISPLAY in
  let m1 := PatentComponent_ (txt "Main Memory") 10 DATABASE in
  let m2 := PatentComponent_ (txt "Cache Memory") 12 DATABASE in
  let m3 := PatentComponent_ (txt "Frame Memory") 14 DATABASE in
  let p := PatentComponent_ (txt "Video Processor") 16 PROCESS in
  let aliased := generate_diagram [s1; s2; s3; d] [] (txt "FIG 1") in
  let distinct := generate_diagram [m1; m2; m3; p] [] (txt "FIG 1") in
  count_lines (txt "    subgraph ") aliased = 1 /\
  In (txt "    subgraph INTERFACE_SYS [" ++ [dquote] ++ txt " " ++ [dquote]
        ++ txt "]") (lines_of aliased) /\
  count_lines (txt "        COMP") aliased = 4 /\
  count_lines (txt "    COMP") aliased = 0 /\
  count_lines (txt "    subgraph ") distinct = 1 /\
  count_lines (txt "        COMP") distinct = 3 /\
  count_lines (txt "    COMP") distinct = 1.
Proof. repeat split; vm_compute; tauto. Qed.

(** ** What the matcher finds *)

Lemma last_char_app (prev : option ascii) (w1 w2 : str) :
  last_char (last_char prev w1) w2 = last_char prev (w1 ++ w2).
Proof. unfold last_char. now rewrite fold_left_app. Qed.

Lemma firstn_matched (w rest : str) :
  firstn (length (w ++ rest) - length rest) (w ++ rest) = w.
Proof.
  rewrite length_app, Nat.add_sub.
  rewrite firstn_app, Nat.sub_diag, firstn_all. simpl. apply app_nil_r.
Qed.

Section MatcherFacts.
Variable A : Type.
Variable ic : bool.

Lemma rep_sound (greedy : bool) (cs : cset) (x : str) :
  forall (lo : nat) (prev : option ascii) (k : option ascii -> str -> option A)
         (a : A),
    rep ic greedy cs lo prev x k = Some a ->
    exists w rest,
      x = w ++ rest /\ lo <= length w /\
      Forall (fun c => cset_mem ic cs c = true) w /\
      k (last_char prev w) rest = Some a.
Proof.
  induction x as [|c x IH]; intros lo prev k a H.
  - assert (lo = 0 /\ k prev [] = Some a) as [-> Hk].
    { destruct greedy, lo; cbn in H; try discriminate; split; auto.
      destruct (k prev []); congruence. }
    exists [], []. repeat split; auto.
  - assert ((lo = 0 /\ k prev (c :: x) = Some a) \/
            (cset_mem ic cs c = true /\
             rep ic greedy cs (pred lo) (Some c) x k = Some a)) as [[-> Hk]|[Hc Hr]].
    { simpl in H. destruct greedy.
      - destruct (cset_mem ic cs c).
        + destruct (rep ic true cs (pred lo) (Some c) x k) eqn:E.
          * right. split; congruence.
          * left. destruct lo; [now split | discriminate].
        + left. destruct lo; [now split | discriminate].
      - destruct lo.
        + destruct (k prev (c :: x)) eqn:E.
          * left. split; congruence.
          * right. destruct (cset_mem ic cs c); [now split | discriminate].
        + right. destruct (cset_mem ic cs c); [now split | discriminate]. }
    + exists [], (c :: x). repeat split; auto.
    + destruct (IH _ _ _ _ Hr) as [w [rest [-> [Hlo [Hall Hk]]]]].
      exists (c :: w), rest. repeat split; auto.
      simpl. lia.
Qed.

Lemma rep_complete (greedy : bool) (cs : cset) (w rest : str) :
  forall (lo : nat) (prev : option ascii) (k : option ascii -> str -> option A),
    lo <= length w ->
    Forall (fun c => cset_mem ic cs c = true) w ->
    k (last_char prev w) rest <> None ->
    rep ic greedy cs lo prev (w ++ rest) k <> None.
Proof.
  induction w as [|c w IH]; intros lo prev k Hlo Hall Hk.
  - assert (lo = 0) as -> by (simpl in Hlo; lia).
    cbn [app last_char fold_left] in *.
    destruct greedy, rest as [|c rest]; cbn.
    + assumption.
    + destruct (cset_mem ic cs c); [|assumption].
      now destruct (rep ic true cs 0 (Some c) rest k).
    + destruct (k prev []); congruence.
    + destruct (k prev (c :: rest)); congruence.
  - inversion Hall as [|? ? Hc Hw]; subst.
    assert (rep ic greedy cs (pred lo) (Some c) (w ++ rest) k <> None) as Hr.
    { apply IH; auto. simpl in Hlo. lia. }
    simpl. rewrite Hc. destruct greedy.
    + destruct (rep ic true cs (pred lo) (Some c) (w ++ rest) k); congruence.
    + destruct lo; [|assumption].
      destruct (k prev (c :: w ++ rest)); [congruence | assumption].
Qed.

End MatcherFacts.

(** Whatever the matcher returns comes from a match, handed to the
    continuation. *)
Lemma rmatch_sound (A : Type) (ic : bool) (r : regex) :
  forall (prev : option ascii) (x : str) (caps : list str) (k : cont A) (a : A),
    rmatch ic r prev x caps k = Some a ->
    exists w rest gs,
      x = w ++ rest /\ matches ic r prev w rest gs /\
      k (last_char prev w) rest (caps ++ gs) = Some a.
Proof.
  induction r as [|cs|greedy lo cs| |r IH|r1 IH1 r2 IH2];
    intros prev x caps k a H; simpl in H.
  - exists [], x, []. rewrite app_nil_r. repeat split; auto. constructor.
  - destruct x as [|c x]; [discriminate|].
    destruct (cset_mem ic cs c) eqn:E; [|discriminate].
    exists [c], x, []. rewrite app_nil_r. repeat split; auto. now constructor.
  - apply rep_sound in H. destruct H as [w [rest [-> [Hlo [Hall Hk]]]]].
    exists w, rest, []. rewrite app_nil_r. repeat split; auto. now constructor.
  - destruct (xorb _ _) eqn:E; [|discriminate].
    exists [], x, []. rewrite app_nil_r. repeat split; auto. now constructor.
  - apply IH in H. destruct H as [w [rest [gs [-> [Hm Hk]]]]].
    rewrite firstn_matched in Hk.
    exists w, rest, (gs ++ [w]). rewrite app_assoc. repeat split; auto.
    now constructor.
  - apply IH1 in H. destruct H as [w1 [rest1 [gs1 [-> [Hm1 H]]]]].
    apply IH2 in H. destruct H as [w2 [rest [gs2 [-> [Hm2 Hk]]]]].
    exists (w1 ++ w2), rest, (gs1 ++ gs2).
    split; [now rewrite app_assoc|]. split; [now constructor|].
    rewrite <- last_char_app, app_assoc. exact Hk.
Qed.

(** Where there is a match after which every continuation state succeeds,
    the matcher succeeds. *)
Lemma rmatch_complete (A : Type) (ic : bool) (r : regex)
  (prev : option ascii) (w rest : str) (gs : list str) :
  matches ic r prev w rest gs ->
  forall (caps : list str) (k : cont A),
    (forall caps', k (last_char prev w) rest caps' <> None) ->
    rmatch ic r prev (w ++ rest) caps k <> None.
Proof.
  induction 1 as [prev rest|cs c prev rest Hc|greedy lo cs prev w rest Hlo Hall
                 |prev rest Hb|r prev w rest gs Hm IH
                 |r1 r2 prev w1 w2 rest gs1 gs2 Hm1 IH1 Hm2 IH2];
    intros caps k Hk; simpl.
  - apply Hk.
  - rewrite Hc. apply Hk.
  - apply rep_complete; auto.
  - rewrite Hb. apply Hk.
  - apply IH. intro caps'. apply Hk.
  - rewrite <- app_assoc. apply IH1. intro caps'.
    apply IH2. intro caps''. rewrite last_char_app. apply Hk.
Qed.

Lemma match_at_sound (ic : bool) (r : regex) (prev : option ascii) (x : str)
  (m : match_obj) :
  match_at ic r prev x = Some m ->
  exists rest, x = fst m ++ rest /\ matches ic r prev (fst m) rest (snd m).
Proof.
  unfold match_at. intro H. apply rmatch_sound in H.
  destruct H as [w [rest [gs [-> [Hm Hk]]]]].
  rewrite firstn_matched in Hk. injection Hk as <-. now exists rest.
Qed.

Lemma match_at_complete (ic : bool) (r : regex) (prev : option ascii)
  (w rest : str) (gs : list str) :
  matches ic r prev w rest gs -> match_at ic r prev (w ++ rest) <> None.
Proof.
  intro H. unfold match_at. apply (rmatch_complete H). discriminate.
Qed.

(** [re.search] succeeds exactly when the pattern matches somewhere. *)
Lemma search_from_iff (ic : bool) (r : regex) (x : str) :
  forall prev,
    search_from ic r prev x = true <->
    exists pre w rest gs,
      x = pre ++ w ++ rest /\ matches ic r (last_char prev pre) w rest gs.
Proof.
  induction x as [|c x IH]; intro prev; simpl.
  - destruct (match_at ic r prev []) as [m|] eqn:E.
    + split; [intros _|reflexivity].
      apply match_at_sound in E. destruct E as [rest [E Hm]].
      now exists [], (fst m), rest, (snd m).
    + split; [discriminate|]. intros [pre [w [rest [gs [E' Hm]]]]].
      destruct pre; [|discriminate]. simpl in E'. rewrite E' in E.
      apply match_at_complete in Hm. cbn [last_char fold_left] in Hm. congruence.
  - destruct (match_at ic r prev (c :: x)) as [m|] eqn:E.
    + split; [intros _|reflexivity].
      apply match_at_sound in E. destruct E as [rest [E Hm]].
      now exists [], (fst m), rest, (snd m).
    + rewrite IH. split.
      * intros [pre [w [rest [gs [-> Hm]]]]].
        now exists (c :: pre), w, rest, gs.
      * intros [pre [w [rest [gs [E' Hm]]]]].
        destruct pre as [|c' pre].
        -- simpl in E'. rewrite E' in E. apply match_at_complete in Hm.
           cbn [last_char fold_left] in Hm. congruence.
        -- injection E' as <- ->. now exists pre, w, rest, gs.
Qed.

Lemma search_iff (ic : bool) (r : regex) (text : str) :
  search ic r text = true <->
  exists pre w rest gs,
    text = pre ++ w ++ rest /\ matches ic r (last_char None pre) w rest gs.
Proof. apply search_from_iff. Qed.

(** *** The link pattern *)

Lemma matches_seq_inv (ic : bool) (r1 r2 : regex) (prev : option ascii)
  (w rest : str) (gs : list str) :
  matches ic (Seq r1 r2) prev w rest gs ->
  exists w1 w2 gs1 gs2,
    w = w1 ++ w2 /\ gs = gs1 ++ gs2 /\
    matches ic r1 prev w1 (w2 ++ rest) gs1 /\
    matches ic r2 (last_char prev w1) w2 rest gs2.
Proof.
  intro H. inversion H; subst. now exists w1, w2, gs1, gs2.
Qed.

(** A spliced phrase matches, under [re.IGNORECASE], the texts that agree
    with it once both are lower-cased. *)
Lemma matches_lit (x : str) :
  forall prev w rest gs,
    matches true (re_lit x) prev w rest gs <-> lower w = lower x /\ gs = [].
Proof.
  induction x as [|a x IH]; intros prev w rest gs; simpl.
  - split.
    + intro H. inversion H; subst. now split.
    + intros [H ->]. destruct w; [constructor | discriminate].
  - split.
    + intro H. apply matches_seq_inv in H.
      destruct H as [w1 [w2 [gs1 [gs2 [-> [-> [H1 H2]]]]]]].
      inversion H1 as [|cs c ? ? Hc| | | |]; subst.
      apply IH in H2. destruct H2 as [H2 ->].
      simpl in Hc. apply Ascii.eqb_eq in Hc.
      split; [|reflexivity]. simpl. now rewrite Hc, H2.
    + intros [H ->]. destruct w as [|c w]; [discriminate|].
      simpl in H. injection H as Hc Hw.
      change (c :: w) with ([c] ++ w). change (@nil str) with (@nil str ++ []).
      constructor.
      * constructor. simpl. now apply Ascii.eqb_eq.
      * now apply IH.
Qed.

(** [.*?] matches the texts without a line feed. *)
Lemma matches_dots (ic greedy : bool) (prev : option ascii) (w rest : str)
  (gs : list str) :
  matches ic (Rep greedy 0 CsDot) prev w rest gs <-> ~ In newline w /\ gs = [].
Proof.
  assert (Forall (fun c => cset_mem ic CsDot c = true) w <-> ~ In newline w) as F.
  { rewrite Forall_forall. simpl. split.
    - intros H Hin. specialize (H _ Hin). now rewrite Ascii.eqb_refl in H.
    - intros H c Hc. apply negb_true_iff. apply Ascii.eqb_neq. congruence. }
  split.
  - intro H. inversion H; subst. split; [now apply F | reflexivity].
  - intros [H ->]. constructor; [lia | now apply F].
Qed.

Lemma matches_link (name1 pattern name2 : str) (prev : option ascii)
  (w rest : str) (gs : list str) :
  matches true (link_pattern name1 pattern name2) prev w rest gs <->
  gs = [] /\
  exists a m1 b m2 c,
    w = a ++ m1 ++ b ++ m2 ++ c /\
    lower a = lower name1 /\ ~ In newline m1 /\
    lower b = lower pattern /\ ~ In newline m2 /\
    lower c = lower name2.
Proof.
  unfold link_pattern. split.
  - intro H.
    apply matches_seq_inv in H. destruct H as [a [w1 [g1 [g1' [-> [-> [Ha H]]]]]]].
    apply matches_seq_inv in H. destruct H as [m1 [w2 [g2 [g2' [-> [-> [Hm1 H]]]]]]].
    apply matches_seq_inv in H. destruct H as [b [w3 [g3 [g3' [-> [-> [Hb H]]]]]]].
    apply matches_seq_inv in H. destruct H as [m2 [c [g4 [g4' [-> [-> [Hm2 Hc]]]]]]].
    apply matches_lit in Ha, Hb, Hc. apply matches_dots in Hm1, Hm2.
    destruct Ha as [Ha ->], Hb as [Hb ->], Hc as [Hc ->].
    destruct Hm1 as [Hm1 ->], Hm2 as [Hm2 ->].
    split; [reflexivity|]. now exists a, m1, b, m2, c.
  - intros [-> [a [m1 [b [m2 [c [-> [Ha [Hm1 [Hb [Hm2 Hc]]]]]]]]]]].
    change (@nil str) with (@nil str ++ ([] ++ ([] ++ ([] ++ [])))).
    constructor; [now apply matches_lit|].
    constructor; [now apply matches_dots|].
    constructor; [now apply matches_lit|].
    constructor; [now apply matches_dots|].
    now apply matches_lit.
Qed.

(** The test of [_extract_relationships] for one pair and one phrase. *)
Lemma search_link_iff (name1 pattern name2 text : str) :
  search true (link_pattern name1 pattern name2) text = true
  <-> linked name1 pattern name2 text.
Proof.
  rewrite search_iff. unfold linked. split.
  - intros [pre [w [post [gs [-> H]]]]]. apply matches_link in H.
    destruct H as [_ [a [m1 [b [m2 [c [-> H]]]]]]].
    exists pre, a, m1, b, m2, c, post. split; [|assumption].
    now rewrite <- !app_assoc.
  - intros [pre [a [m1 [b [m2 [c [post [-> H]]]]]]]].
    exists pre, (a ++ m1 ++ b ++ m2 ++ c), post, [].
    split; [now rewrite <- !app_assoc|].
    apply matches_link. split; [reflexivity|]. now exists a, m1, b, m2, c.
Qed.

(** *** Relationship inference *)


Lemma extract_relationships_pairs (text : str) (components : list PatentComponent) :
  _extract_relationships text components
  = flat_map (fun pr => pair_connection text (fst pr) (snd pr))
             (ordered_pairs components).
Proof.
  induction components as [|c cs IH]; simpl; [reflexivity|].
  rewrite flat_map_app, IH. f_equal.
  clear IH. induction cs as [|d cs IH]; simpl; [reflexivity|]. now rewrite IH.
Qed.



Lemma pair_connection_none (text : str) (comp1 comp2 : PatentComponent) :
  (forall pattern, In pattern relationship_patterns ->
                   ~ linked (name comp1) pattern (name comp2) text) ->
  pair_connection text comp1 comp2 = [].
Proof.
  intro Hnone. unfold pair_connection.
  destruct (find _ relationship_patterns) as [p|] eqn:E; [|reflexivity].
  apply find_some in E. destruct E as [Hin H].
  exfalso. apply (Hnone p Hin). now apply search_link_iff.
Qed.






(** ** The names that the parser produces

    A name is spliced into the link pattern as it is.  The names that
    [_extract_components] produces consist of letters and whitespace, which
    stand for themselves in a pattern, so [re_lit] is the pattern they
    denote. *)

Lemma scan_sound (ic : bool) (r : regex) (x : str) :
  forall prev skip m,
    In m (scan ic r prev x skip) ->
    exists prev' x', match_at ic r prev' x' = Some m.
Proof.
  induction x as [|c x IH]; intros prev skip m H.
  - destruct skip; simpl in H; [|destruct H].
    destruct (match_at ic r prev []) as [m0|] eqn:E; [|destruct H].
    destruct H as [<-|F]; [|destruct F]. now exists prev, [].
  - destruct skip; simpl in H; [|now apply IH in H].
    destruct (match_at ic r prev (c :: x)) as [m0|] eqn:E; [|now apply IH in H].
    destruct H as [<-|H]; [now exists prev, (c :: x) | now apply IH in H].
Qed.

Lemma finditer_sound (ic : bool) (r : regex) (text : str) (m : match_obj) :
  In m (finditer ic r text) ->
  exists prev rest, matches ic r prev (fst m) rest (snd m).
Proof.
  intro H. apply scan_sound in H. destruct H as [prev [x H]].
  apply match_at_sound in H. destruct H as [rest [_ H]]. now exists prev, rest.
Qed.

(** A citation: the first group is a run of letters and whitespace, the
    second a non-empty run of digits. *)
Lemma component_pattern_groups (prev : option ascii) (w rest : str)
  (gs : list str) :
  matches false component_pattern prev w rest gs ->
  exists g1 g2,
    gs = [g1; g2] /\ plain_text g1 = true /\
    forallb Char.is_digit g2 = true /\ g2 <> [].
Proof.
  unfold component_pattern. intro H.
  apply matches_seq_inv in H. destruct H as [w1 [x1 [gs1 [gs1' [-> [-> [H1 H]]]]]]].
  apply matches_seq_inv in H. destruct H as [w2 [x2 [gs2 [gs2' [-> [-> [H2 H]]]]]]].
  apply matches_seq_inv in H. destruct H as [w3 [x3 [gs3 [gs3' [-> [-> [H3 H]]]]]]].
  apply matches_seq_inv in H. destruct H as [w4 [w5 [gs4 [gs5 [-> [-> [H4 H5]]]]]]].
  inversion H1 as [| | | |r0 p0 w0 rest0 g0 H1'|]; subst.
  inversion H1'; subst.
  inversion H2; subst. inversion H3; subst.
  inversion H4 as [| | | |r0 p0 w0 rest0 g0 H4'|]; subst.
  inversion H4'; subst.
  inversion H5; subst.
  exists w1, w4. split; [reflexivity|]. split; [|split].
  - unfold plain_text. apply forallb_forall. now apply Forall_forall.
  - apply forallb_forall. now apply Forall_forall.
  - intros ->. simpl in *. lia.
Qed.

Lemma plain_lstrip (x : str) : plain_text x = true -> plain_text (lstrip x) = true.
Proof.
  induction x as [|c x IH]; [reflexivity|]. intro H. cbn [lstrip].
  destruct (Char.is_space c); [|exact H].
  apply IH. unfold plain_text in H. cbn [forallb] in H.
  apply andb_true_iff in H. tauto.
Qed.

Lemma plain_rev (x : str) : plain_text (rev x) = plain_text x.
Proof.
  unfold plain_text. induction x as [|c x IH]; simpl; [reflexivity|].
  rewrite forallb_app, IH. simpl. rewrite andb_true_r. apply andb_comm.
Qed.

Lemma plain_strip (x : str) : plain_text x = true -> plain_text (strip x) = true.
Proof.
  intro H. unfold strip, rstrip. rewrite plain_rev.
  apply plain_lstrip. rewrite plain_rev. now apply plain_lstrip.
Qed.

Lemma plain_char_lower (c : ascii) :
  Char.is_alpha (Char.to_lower c) || Char.is_space (Char.to_lower c)
  = Char.is_alpha c || Char.is_space c.
Proof. each_char c. Qed.

Lemma plain_char_title (b : bool) (c : ascii) :
  Char.is_alpha c = true ->
  Char.is_alpha (if b then Char.to_lower c else Char.to_upper c) = true.
Proof. destruct b; each_char c. Qed.

Lemma plain_lower (x : str) : plain_text (lower x) = plain_text x.
Proof.
  unfold plain_text, lower. induction x as [|c x IH]; simpl; [reflexivity|].
  now rewrite IH, plain_char_lower.
Qed.

Lemma plain_title_from (b : bool) (x : str) :
  plain_text x = true -> plain_text (title_from b x) = true.
Proof.
  revert b. induction x as [|c x IH]; intro b; simpl; [reflexivity|].
  intro H. apply andb_true_iff in H. destruct H as [Hc Hx].
  destruct (Char.is_alpha c) eqn:E; simpl.
  - rewrite plain_char_title by assumption. simpl. now apply IH.
  - rewrite E. simpl in Hc. rewrite Hc. simpl. now apply IH.
Qed.

(** A keyword occurrence is the keyword up to case. *)
Lemma keyword_occurrence (pattern text w : str) :
  In w (findall true (keyword_pattern pattern) text) -> lower w = lower pattern.
Proof.
  unfold findall. intro H. apply in_map_iff in H. destruct H as [m [<- H]].
  apply finditer_sound in H. destruct H as [prev [rest H]].
  unfold keyword_pattern in H.
  apply matches_seq_inv in H. destruct H as [w1 [x1 [gs1 [gs1' [E [_ [H1 H]]]]]]].
  apply matches_seq_inv in H. destruct H as [w2 [w3 [gs2 [gs3 [-> [_ [H2 H3]]]]]]].
  inversion H1; subst. inversion H3; subst.
  rewrite E. simpl. rewrite app_nil_r.
  now apply matches_lit in H2.
Qed.

(** The keyword phrases of the table are plain and in lower case. *)
Lemma table_patterns_plain (item : ComponentType * list str) (pattern : str) :
  In item component_patterns -> In pattern (snd item) ->
  plain_text pattern = true /\ lower pattern = pattern.
Proof.
  intros Hi Hp.
  assert (forallb (fun it => forallb (fun p => plain_text p && str_eqb (lower p) p)
                                     (snd it)) component_patterns = true) as H
    by (vm_compute; reflexivity).
  rewrite forallb_forall in H. specialize (H item Hi).
  rewrite forallb_forall in H. specialize (H pattern Hp).
  apply andb_true_iff in H. destruct H as [H1 H2].
  split; [assumption | now apply str_eqb_eq].
Qed.

Lemma keyword_matches_plain (text : str) (tm : ComponentType * str) :
  In tm (keyword_matches text) -> plain_text (snd tm) = true.
Proof.
  unfold keyword_matches. intro H.
  apply in_flat_map in H. destruct H as [item [Hitem H]].
  apply in_flat_map in H. destruct H as [pattern [Hp H]].
  apply in_map_iff in H. destruct H as [w [<- Hw]]. cbn [snd].
  apply keyword_occurrence in Hw.
  destruct (@table_patterns_plain item pattern Hitem Hp) as [Hplain _].
  now rewrite <- plain_lower, Hw, plain_lower.
Qed.

Lemma fold_step_plain (l : list (ComponentType * str))
  (st : list PatentComponent * Z) :
  (forall tm, In tm l -> plain_text (snd tm) = true) ->
  Forall (fun c => plain_text (name c) = true) (fst st) ->
  Forall (fun c => plain_text (name c) = true) (fst (fold_left step l st)).
Proof.
  revert st. induction l as [|tm l IH]; intros st Hl Hst; simpl; [assumption|].
  apply IH; [intros tm' H; apply Hl; now right|].
  destruct st as [cs n]. unfold step, scan_step.
  destruct (existsb _ cs); [assumption|]. cbn [fst].
  apply Forall_app. split; [assumption|].
  constructor; [|constructor]. cbn [name PatentComponent_].
  apply plain_title_from. apply Hl. now left.
Qed.

(** Every name that [_extract_components] produces consists of letters and
    whitespace. *)
Lemma extract_components_names_plain (text : str) (c : PatentComponent) :
  In c (_extract_components text) -> plain_text (name c) = true.
Proof.
  unfold _extract_components.
  destruct (cited_components text) as [|c0 cs] eqn:E.
  - rewrite keyword_scan_fold. intro H.
    assert (Forall (fun c => plain_text (name c) = true)
              (fst (fold_left step (keyword_matches text) ([], 10%Z)))) as F
      by (apply fold_step_plain; [apply keyword_matches_plain | constructor]).
    rewrite Forall_forall in F. now apply F.
  - rewrite <- E. unfold cited_components, findall2. rewrite map_map.
    intro H. apply in_map_iff in H. destruct H as [m [<- Hm]].
    cbn [name PatentComponent_ fst].
    apply finditer_sound in Hm. destruct Hm as [prev [rest Hm]].
    apply component_pattern_groups in Hm.
    destruct Hm as [g1 [g2 [Eg [Hg1 _]]]].
    destruct m as [w gs]. cbn [snd] in *. subst gs. cbn [nth].
    now apply plain_strip.
Qed.

(** * Further properties *)

Unset Implicit Arguments.

(** ** What the extraction yields *)

Lemma fold_step_Forall (P : PatentComponent -> Prop)
  (l : list (ComponentType * str)) (st : list PatentComponent * Z) :
  (forall tm n, In tm l -> P (PatentComponent_ (title (snd tm)) n (fst tm))) ->
  Forall P (fst st) -> Forall P (fst (fold_left step l st)).
Proof.
  revert st. induction l as [|tm l IH]; intros st Hl Hst; simpl; [assumption|].
  apply IH; [intros tm' n H; apply Hl; now right|].
  destruct st as [cs n]. unfold step, scan_step.
  destruct (existsb _ cs); [assumption|]. cbn [fst].
  apply Forall_app. split; [assumption|].
  constructor; [|constructor]. apply Hl. now left.
Qed.

Lemma keyword_matches_registered (text : str) (tm : ComponentType * str) :
  In tm (keyword_matches text) -> registered (fst tm) (lower (snd tm)).
Proof.
  unfold keyword_matches. intro H.
  apply in_flat_map in H. destruct H as [item [Hitem H]].
  apply in_flat_map in H. destruct H as [pattern [Hp H]].
  apply in_map_iff in H. destruct H as [w [<- Hw]]. cbn [fst snd].
  apply keyword_occurrence in Hw.
  destruct (@table_patterns_plain item pattern Hitem Hp) as [_ Hlow].
  exists item. repeat split; auto. now rewrite Hw, Hlow.
Qed.

Lemma fallback_registered (text : str) (c : PatentComponent) :
  cited_components text = [] ->
  In c (_extract_components text) ->
  registered (component_type c) (lower (name c)).
Proof.
  intros Hc H. rewrite (extract_fallback _ Hc), keyword_scan_fold in H.
  assert (Forall (fun c => registered (component_type c) (lower (name c)))
            (fst (fold_left step (keyword_matches text) ([], 10%Z)))) as F.
  { apply fold_step_Forall; [|constructor].
    intros tm n Htm. cbn [component_type name PatentComponent_].
    rewrite lower_title. now apply (keyword_matches_registered text). }
  rewrite Forall_forall in F. now apply F.
Qed.

(** X1.  From ASCII text, every name that [_extract_components] produces,
    under either strategy, consists of ASCII letters and whitespace only:
    spliced into the link pattern of [_extract_relationships] it contains
    no character with a meaning of its own in a regular expression. *)
Theorem X1_names_are_letters_and_whitespace (text : str) (c : PatentComponent) :
  isascii text = true ->
  In c (fst (parse_claims text)) ->
  Forall (fun ch => Char.is_alpha ch = true \/ Char.is_space ch = true) (name c).
Proof.
  unfold parse_claims. cbn [fst]. intros _ H.
  apply extract_components_names_plain in H. unfold plain_text in H.
  rewrite forallb_forall in H. apply Forall_forall. intros ch Hch.
  apply orb_true_iff. now apply H.
Qed.

Lemma X1_names_are_letters_and_whitespace_witness :
  let text := txt "a data-bus (7) feeds the ALU (12)" in
  isascii text = true /\
  In (PatentComponent_ (txt "feeds the ALU") 12 PROCESS) (fst (parse_claims text)) /\
  Forall (fun ch => Char.is_alpha ch = true \/ Char.is_space ch = true)
         (txt "feeds the ALU").
Proof.
  intro text.
  assert (isascii text = true) as A by reflexivity.
  assert (In (PatentComponent_ (txt "feeds the ALU") 12 PROCESS)
             (fst (parse_claims text))) as H by (vm_compute; tauto).
  split; [exact A | split; [exact H|]].
  exact (X1_names_are_letters_and_whitespace text _ A H).
Defined.

Lemma is_alpha_title_char (b : bool) (c : ascii) :
  Char.is_alpha (if b then Char.to_lower c else Char.to_upper c) = Char.is_alpha c.
Proof. destruct b; each_char c. Qed.

Lemma to_upper_idem (c : ascii) : Char.to_upper (Char.to_upper c) = Char.to_upper c.
Proof. each_char c. Qed.

Lemma to_upper_lower (c : ascii) :
  Char.is_alpha c = true -> Char.to_lower (Char.to_upper c) = Char.to_lower c.
Proof. intros _. apply to_lower_upper. Qed.

Lemma title_from_idem (b : bool) (x : str) :
  title_from b (title_from b x) = title_from b x.
Proof.
  revert b. induction x as [|c x IH]; intro b; simpl; [reflexivity|].
  destruct (Char.is_alpha c) eqn:E; simpl.
  - rewrite is_alpha_title_char, E, IH. f_equal.
    destruct b; [apply to_lower_idem | apply to_upper_idem].
  - now rewrite E, IH.
Qed.

(** X2.  In the keyword scan of ASCII text every component is named after
    a keyword of the pattern table: its name, lower-cased, is a phrase
    written in the table under the type of the component, and the name
    itself is in title case. *)
Theorem X2_fallback_components_are_keywords (text : str) (c : PatentComponent) :
  isascii text = true ->
  cited_components text = [] ->
  In c (fst (parse_claims text)) ->
  registered (component_type c) (lower (name c)) /\ title (name c) = name c.
Proof.
  intros _ Hc H. unfold parse_claims in H. cbn [fst] in H.
  split; [now apply (fallback_registered text)|].
  rewrite (extract_fallback _ Hc), keyword_scan_fold in H.
  assert (Forall (fun c => title (name c) = name c)
            (fst (fold_left step (keyword_matches text) ([], 10%Z)))) as F.
  { apply fold_step_Forall; [|constructor].
    intros tm n _. cbn [name PatentComponent_]. apply title_from_idem. }
  rewrite Forall_forall in F. now apply F.
Qed.

Lemma X2_fallback_components_are_keywords_witness :
  let text := txt "The STORAGE DEVICE holds frames for the output device." in
  let c := PatentComponent_ (txt "Output Device") 12 INTERFACE in
  isascii text = true /\
  cited_components text = [] /\ In c (fst (parse_claims text)) /\
  registered INTERFACE (txt "output device") /\
  title (txt "Output Device") = txt "Output Device".
Proof.
  intros text c.
  assert (isascii text = true) as A by reflexivity.
  assert (cited_components text = []) as Hc by (vm_compute; reflexivity).
  assert (In c (fst (parse_claims text))) as H by (vm_compute; tauto).
  split; [exact A | split; [exact Hc | split; [exact H|]]].
  exact (X2_fallback_components_are_keywords text c A Hc H).
Defined.

(** X3.  In the keyword scan of ASCII text no two components have the same
    name up to letter case: a keyword that occurs several times, in
    whatever case, gives one component. *)
Theorem X3_fallback_names_distinct_up_to_case (text : str) (i j : nat)
  (ci cj : PatentComponent) :
  isascii text = true ->
  cited_components text = [] ->
  nth_error (fst (parse_claims text)) i = Some ci ->
  nth_error (fst (parse_claims text)) j = Some cj ->
  i <> j ->
  lower (name ci) <> lower (name cj).
Proof.
  unfold parse_claims. cbn [fst]. intros _ Hc Hi Hj Hij E. apply Hij.
  pose proof (keyword_scan_names_distinct text Hc) as Hnd.
  rewrite NoDup_nth_error in Hnd. apply Hnd.
  - rewrite length_map. apply nth_error_Some. congruence.
  - rewrite !nth_error_map, Hi, Hj. simpl. now rewrite E.
Qed.

Lemma X3_fallback_names_distinct_up_to_case_witness :
  let text := txt "A MEMORY, a Memory and a memory share one controller." in
  isascii text = true /\
  fst (parse_claims text)
  = [ PatentComponent_ (txt "Controller") 10 PROCESS;
      PatentComponent_ (txt "Memory") 12 DATABASE ] /\
  lower (txt "Controller") <> lower (txt "Memory").
Proof.
  intro text. split; [reflexivity | split; [vm_compute; reflexivity|]].
  apply (X3_fallback_names_distinct_up_to_case text 0 1
           (PatentComponent_ (txt "Controller") 10 PROCESS)
           (PatentComponent_ (txt "Memory") 12 DATABASE));
    [vm_compute; reflexivity .. | lia].
Defined.

(** X4.  Whatever the text and the strategy, the type of an extracted
    component is [PROCESS], [DATABASE] or [INTERFACE]; no component is ever
    given [DECISION], [NETWORK] or [DOCUMENT]. *)
Theorem X4_extracted_types (text : str) (c : PatentComponent) :
  In c (fst (parse_claims text)) ->
  (component_type c = PROCESS \/ component_type c = DATABASE
   \/ component_type c = INTERFACE) /\
  component_type c <> DECISION /\ component_type c <> NETWORK /\
  component_type c <> DOCUMENT.
Proof.
  unfold parse_claims. cbn [fst]. intro H.
  apply extract_components_types in H.
  destruct H as [<-|[<-|[<-|F]]]; [| | |destruct F];
    repeat split; auto; discriminate.
Qed.

Lemma X4_extracted_types_witness :
  let text := txt "a network router (4) and a decision document (6)" in
  map component_type (fst (parse_claims text)) = [PROCESS; PROCESS] /\
  PROCESS <> NETWORK.
Proof.
  intro text. split; [vm_compute; reflexivity|].
  assert (In (PatentComponent_ (txt "a network router") 4 PROCESS)
             (fst (parse_claims text))) as H by (vm_compute; tauto).
  exact (proj1 (proj2 (proj2 (X4_extracted_types text _ H)))).
Defined.

(** The classifier sees a name through its lower-cased form only. *)
Lemma classify_lower (x y : str) :
  lower x = lower y -> _classify_component x = _classify_component y.
Proof. unfold _classify_component. now intros ->. Qed.

Lemma classify_keyword (t : ComponentType) (x : str) :
  registered t x -> _classify_component x = t.
Proof.
  intros [item [Hitem [<- Hx]]].
  assert (forallb (fun it => forallb (fun p =>
            ComponentType_eqb (_classify_component p) (fst it)) (snd it))
            component_patterns = true) as H by (vm_compute; reflexivity).
  rewrite forallb_forall in H. specialize (H item Hitem).
  rewrite forallb_forall in H. specialize (H x Hx).
  now apply ComponentType_eqb_eq.
Qed.

(** X5.  On ASCII text the two strategies agree on types: whichever
    strategy found a component, its type is the one [_classify_component]
    gives its name.  For the keyword scan this holds although the type is
    taken from the loop over the table and the classifier is not called. *)
Theorem X5_type_is_classification_of_name (text : str) (c : PatentComponent) :
  isascii text = true ->
  In c (fst (parse_claims text)) ->
  component_type c = _classify_component (name c).
Proof.
  unfold parse_claims. cbn [fst]. intros _ H.
  destruct (cited_components text) as [|c0 cs] eqn:E.
  - pose proof (fallback_registered text c E H) as R.
    rewrite (classify_lower (name c) (lower (name c))) by now rewrite lower_idem.
    symmetry. now apply classify_keyword.
  - rewrite extract_cited in H by congruence.
    rewrite E in H. rewrite <- E in H. unfold cited_components in H.
    apply in_map_iff in H. destruct H as [m [<- _]]. reflexivity.
Qed.

Lemma X5_type_is_classification_of_name_witness :
  let text := txt "A visual display shows the contents of the data store." in
  let c := PatentComponent_ (txt "Visual Display") 14 INTERFACE in
  isascii text = true /\
  In c (fst (parse_claims text)) /\
  INTERFACE = _classify_component (txt "Visual Display").
Proof.
  intros text c.
  assert (isascii text = true) as A by reflexivity.
  assert (In c (fst (parse_claims text))) as H by (vm_compute; tauto).
  split; [exact A | split; [exact H|]].
  exact (X5_type_is_classification_of_name text c A H).
Defined.

(** X6.  The keyword scan of ASCII text yields at most seventeen
    components, one per keyword of the table, so its reference numbers
    never exceed 42. *)
Theorem X6_fallback_size (text : str) (c : PatentComponent) :
  isascii text = true ->
  cited_components text = [] ->
  In c (fst (parse_claims text)) ->
  length (fst (parse_claims text)) <= 17 /\
  (10 <= reference_num c <= 42)%Z.
Proof.
  unfold parse_claims. cbn [fst]. intros _ Hc H.
  assert (length (_extract_components text) <= 17) as L.
  { rewrite <- (length_map (fun c => lower (name c))).
    change 17 with (length keywords).
    apply NoDup_incl_length; [now apply keyword_scan_names_distinct|].
    intros x Hx. apply in_map_iff in Hx. destruct Hx as [d [<- Hd]].
    destruct (fallback_registered text d Hc Hd) as [item [Hitem [_ Hin]]].
    unfold keywords. apply in_flat_map. now exists item. }
  split; [exact L|].
  apply In_nth_error in H. destruct H as [i Hi].
  assert (i < length (_extract_components text)) as Li
    by (apply nth_error_Some; congruence).
  pose proof (inv_ids (keyword_scan_inv text)) as Hids.
  rewrite <- (extract_fallback _ Hc) in Hids.
  assert (reference_num c = (10 + 2 * Z.of_nat i)%Z) as ->.
  { apply (even_ids_nth (length (_extract_components text))).
    rewrite <- Hids, nth_error_map, Hi. reflexivity. }
  lia.
Qed.

Lemma X6_fallback_size_witness :
  let text := txt "controller, memory, display, screen and monitor" in
  let c := PatentComponent_ (txt "Monitor") 18 INTERFACE in
  isascii text = true /\
  cited_components text = [] /\ In c (fst (parse_claims text)) /\
  length (fst (parse_claims text)) <= 17 /\ (10 <= 18 <= 42)%Z.
Proof.
  intros text c.
  assert (isascii text = true) as A by reflexivity.
  assert (cited_components text = []) as Hc by (vm_compute; reflexivity).
  assert (In c (fst (parse_claims text))) as H by (vm_compute; tauto).
  split; [exact A | split; [exact Hc | split; [exact H|]]].
  exact (X6_fallback_size text c A Hc H).
Defined.

(** ** What the relationship inference yields *)

Lemma ordered_pairs_length (A : Type) (l : list A) :
  2 * length (ordered_pairs l) = length l * (length l - 1).
Proof.
  induction l as [|x l IH]; [reflexivity|].
  cbn [ordered_pairs length]. rewrite length_app, length_map.
  destruct l as [|y l]; [reflexivity|]. cbn [length] in *. nia.
Qed.

Lemma flat_map_length_le (A B : Type) (f : A -> list B) (l : list A) :
  (forall x, length (f x) <= 1) -> length (flat_map f l) <= length l.
Proof.
  intro H. induction l as [|x l IH]; simpl; [lia|].
  rewrite length_app. specialize (H x). lia.
Qed.

Lemma pair_connection_length (text : str) (c1 c2 : PatentComponent) :
  length (pair_connection text c1 c2) <= 1.
Proof.
  unfold pair_connection. destruct (find _ relationship_patterns); simpl; lia.
Qed.

(** X7.  Among [n] components [_extract_relationships] infers at most
    [n (n - 1) / 2] relationships, one per pair at most; with fewer than
    two components it infers none. *)
Theorem X7_relationship_count (text : str) (components : list PatentComponent) :
  2 * length (_extract_relationships text components)
  <= length components * (length components - 1).
Proof.
  rewrite extract_relationships_pairs, <- ordered_pairs_length.
  apply Nat.mul_le_mono_l. apply flat_map_length_le.
  intros [c1 c2]. apply pair_connection_length.
Qed.

(** X8.  Every inferred relationship carries one of nine labels, the
    title-cased phrases of [relationship_patterns]; lower-casing the label
    gives the phrase back; and its connection type is [data_flow]. *)
Theorem X8_relationship_labels (text : str) (components : list PatentComponent)
  (conn : PatentConnection) :
  In conn (_extract_relationships text components) ->
  In (label conn) relationship_labels /\
  In (lower (label conn)) relationship_patterns /\
  connection_type conn = txt "data_flow".
Proof.
  intro H. apply extract_relationships_ends in H.
  destruct H as [i [j [c1 [c2 [_ [_ [_ H]]]]]]].
  unfold pair_connection in H.
  destruct (find _ relationship_patterns) as [p|] eqn:E; [|destruct H].
  destruct H as [<-|F]; [|destruct F].
  apply find_some in E. destruct E as [Hp _].
  cbn [label connection_type PatentConnection_].
  split; [|split; [|reflexivity]].
  - change relationship_labels with (map title relationship_patterns).
    now apply in_map.
  - rewrite lower_title.
    assert (forallb (fun q => str_eqb (lower q) q) relationship_patterns = true)
      as L by (vm_compute; reflexivity).
    rewrite forallb_forall in L. specialize (L p Hp).
    apply str_eqb_eq in L. now rewrite L.
Qed.

Lemma X8_relationship_labels_witness :
  let text := txt "The controller is in communication with the memory." in
  let conn := PatentConnection_ (COMP 10) (COMP 12) (txt "In Communication With") in
  In conn (_extract_relationships text (_extract_components text)) /\
  In (txt "In Communication With") relationship_labels /\
  In (txt "in communication with") relationship_patterns /\
  connection_type conn = txt "data_flow".
Proof.
  intros text conn.
  assert (In conn (_extract_relationships text (_extract_components text))) as H
    by (vm_compute; tauto).
  split; [exact H | exact (X8_relationship_labels text _ conn H)].
Defined.

(** *** Letter case does not matter to the inference *)

Lemma to_lower_newline (c : ascii) : Char.to_lower c = newline <-> c = newline.
Proof.
  split; [|now intros ->].
  destruct c as [[] [] [] [] [] [] [] []]; vm_compute; intro H;
    try reflexivity; discriminate H.
Qed.

Lemma newline_lower (m m' : str) :
  lower m' = lower m -> ~ In newline m -> ~ In newline m'.
Proof.
  intros E H Hin. apply H.
  assert (In newline (lower m)) as Hl.
  { rewrite <- E. unfold lower.
    change newline with (Char.to_lower newline). now apply in_map. }
  unfold lower in Hl. apply in_map_iff in Hl. destruct Hl as [c [Hc Hin']].
  apply (proj1 (to_lower_newline c)) in Hc. now subst c.
Qed.

Lemma lower_app (x y : str) : lower (x ++ y) = lower x ++ lower y.
Proof. apply map_app. Qed.

Lemma lower_app_inv (t x y : str) :
  lower t = x ++ y ->
  exists x' y', t = x' ++ y' /\ lower x' = x /\ lower y' = y.
Proof. apply map_eq_app. Qed.

Lemma linked_case (name1 name1' pattern name2 name2' text text' : str) :
  lower name1 = lower name1' -> lower name2 = lower name2' ->
  lower text = lower text' ->
  linked name1 pattern name2 text -> linked name1' pattern name2' text'.
Proof.
  intros E1 E2 Et [pre [a [m1 [b [m2 [c [post [-> [Ha [H1 [Hb [H2 Hc]]]]]]]]]]]].
  symmetry in Et. rewrite !lower_app in Et.
  apply lower_app_inv in Et. destruct Et as [pre' [r1 [-> [_ Et]]]].
  apply lower_app_inv in Et. destruct Et as [a' [r2 [-> [Ea Et]]]].
  apply lower_app_inv in Et. destruct Et as [m1' [r3 [-> [Em1 Et]]]].
  apply lower_app_inv in Et. destruct Et as [b' [r4 [-> [Eb Et]]]].
  apply lower_app_inv in Et. destruct Et as [m2' [r5 [-> [Em2 Et]]]].
  apply lower_app_inv in Et. destruct Et as [c' [post' [-> [Ec _]]]].
  exists pre', a', m1', b', m2', c', post'. repeat split.
  - congruence.
  - now apply (newline_lower m1).
  - congruence.
  - now apply (newline_lower m2).
  - congruence.
Qed.

Lemma find_ext_in (A : Type) (f g : A -> bool) (l : list A) :
  (forall x, In x l -> f x = g x) -> find f l = find g l.
Proof.
  induction l as [|x l IH]; intro H; simpl; [reflexivity|].
  rewrite <- (H x) by now left. destruct (f x); [reflexivity|].
  apply IH. intros y Hy. apply H. now right.
Qed.

Lemma search_link_case (name1 name1' pattern name2 name2' text text' : str) :
  lower name1 = lower name1' -> lower name2 = lower name2' ->
  lower text = lower text' ->
  search true (link_pattern name1 pattern name2) text
  = search true (link_pattern name1' pattern name2') text'.
Proof.
  intros E1 E2 Et.
  destruct (search true (link_pattern name1 pattern name2) text) eqn:S1;
  destruct (search true (link_pattern name1' pattern name2') text') eqn:S2;
    try reflexivity.
  - apply search_link_iff in S1.
    apply (linked_case _ _ _ _ _ _ _ E1 E2 Et), search_link_iff in S1. congruence.
  - apply search_link_iff in S2.
    apply (linked_case _ _ _ _ _ _ _ (eq_sym E1) (eq_sym E2) (eq_sym Et)),
      search_link_iff in S2. congruence.
Qed.

Lemma pair_connection_case (text text' : str) (c1 c1' c2 c2' : PatentComponent) :
  lower text = lower text' ->
  same_up_to_case c1 c1' -> same_up_to_case c2 c2' ->
  pair_connection text c1 c2 = pair_connection text' c1' c2'.
Proof.
  intros Et [N1 R1] [N2 R2]. unfold pair_connection.
  rewrite (find_ext_in _
             (fun pattern => search true (link_pattern (name c1) pattern (name c2)) text)
             (fun pattern => search true (link_pattern (name c1') pattern (name c2')) text')).
  - now rewrite R1, R2.
  - intros p _. now apply search_link_case.
Qed.

Lemma extract_relationships_case (text text' : str)
  (components components' : list PatentComponent) :
  lower text = lower text' ->
  Forall2 same_up_to_case components components' ->
  _extract_relationships text components
  = _extract_relationships text' components'.
Proof.
  intros Et F. induction F as [|c c' cs cs' Hc F IH]; simpl; [reflexivity|].
  rewrite IH. f_equal.
  clear IH. induction F as [|d d' ds ds' Hd F IH]; simpl; [reflexivity|].
  rewrite IH. f_equal. now apply pair_connection_case.
Qed.

(** X9.  Relationship inference ignores letter case altogether.  For
    components with names of letters and whitespace, as the parser
    produces them, two ASCII texts that agree once lower-cased and two
    component lists that agree up to the case of the names give the same
    relationships. *)
Theorem X9_relationships_ignore_case (text text' : str)
  (components components' : list PatentComponent) :
  isascii text = true -> isascii text' = true ->
  Forall (fun c => plain_text (name c) = true) components ->
  lower text = lower text' ->
  Forall2 same_up_to_case components components' ->
  _extract_relationships text components
  = _extract_relationships text' components'.
Proof.
  intros _ _ _. exact (extract_relationships_case text text' components components').
Qed.

Lemma X9_relationships_ignore_case_witness :
  _extract_relationships
    (txt "The CONTROLLER is Coupled To the Memory.")
    [ PatentComponent_ (txt "Controller") 10 PROCESS;
      PatentComponent_ (txt "Memory") 12 DATABASE ]
  = _extract_relationships
      (txt "the controller is coupled to the memory.")
      [ PatentComponent_ (txt "controller") 10 PROCESS;
        PatentComponent_ (txt "MEMORY") 12 DATABASE ].
Proof.
  apply X9_relationships_ignore_case.
  - reflexivity.
  - reflexivity.
  - repeat constructor.
  - vm_compute. reflexivity.
  - repeat constructor.
Defined.

(** ** Where the matches of a scan stand *)

(** Every match that [scan] reports stands in the text, and the character
    before it satisfies [Q] whenever [Q] holds at the start of the text,
    after every match, and after every character at which the pattern
    fails while it matches right behind it. *)
Lemma scan_bound (ic : bool) (r : regex) (Q : option ascii -> Prop) :
  (forall prev x m, match_at ic r prev x = Some m ->
                    fst m <> [] /\ Q (last_char prev (fst m))) ->
  (forall prev ch x m, match_at ic r prev (ch :: x) = None ->
                       match_at ic r (Some ch) x = Some m -> Q (Some ch)) ->
  forall x prev skip m,
    match skip with
    | O => forall m0, match_at ic r prev x = Some m0 -> Q prev
    | S _ => Q (last_char prev (firstn skip x))
    end ->
    In m (scan ic r prev x skip) ->
    exists pre rest,
      x = pre ++ fst m ++ rest /\
      matches ic r (last_char prev pre) (fst m) rest (snd m) /\
      Q (last_char prev pre).
Proof.
  intros H2 H3. induction x as [|c x IH]; intros prev skip m I H.
  - destruct skip; simpl in H; [|destruct H].
    destruct (match_at ic r prev []) as [m0|] eqn:E; [|destruct H].
    destruct H as [<-|F]; [|destruct F].
    pose proof (I _ eq_refl) as HQ.
    apply match_at_sound in E. destruct E as [rest [E Hm]].
    exists [], rest. repeat split; auto.
  - destruct skip as [|n]; simpl in H.
    + destruct (match_at ic r prev (c :: x)) as [m0|] eqn:E.
      * destruct H as [<-|H].
        -- pose proof (I _ eq_refl) as HQ.
           apply match_at_sound in E. destruct E as [rest [E Hm]].
           exists [], rest. repeat split; auto.
        -- destruct (H2 _ _ _ E) as [Hne HQ].
           pose proof E as E0. apply match_at_sound in E0. destruct E0 as [rest0 [E0 _]].
           destruct (fst m0) as [|c0 w0] eqn:Ew; [congruence|].
           simpl in E0. injection E0 as <- Ex.
           destruct (IH (Some c) (pred (length (c :: w0))) m) as [pre [rest [Ep [Hm HQ']]]];
             [|exact H|].
           { cbn [length pred]. destruct (length w0) as [|k] eqn:Ek.
             - intros m1 _. destruct w0; [exact HQ | discriminate].
             - rewrite <- Ek, Ex, firstn_app, Nat.sub_diag, firstn_all.
               simpl firstn. rewrite app_nil_r. exact HQ. }
           exists (c :: pre), rest. repeat split; auto. simpl. now rewrite <- Ep.
      * destruct (IH (Some c) 0 m) as [pre [rest [Ep [Hm HQ']]]]; [|exact H|].
        { intros m1 E1. exact (H3 _ _ _ _ E E1). }
        exists (c :: pre), rest. repeat split; auto. simpl. now rewrite <- Ep.
    + destruct (IH (Some c) n m) as [pre [rest [Ep [Hm HQ']]]]; [|exact H|].
      { destruct n; [intros m1 _; exact I | exact I]. }
      exists (c :: pre), rest. repeat split; auto. simpl. now rewrite <- Ep.
Qed.

(** The scan reports nothing exactly when the pattern matches nowhere. *)
Lemma scan_nil_iff (ic : bool) (r : regex) (x : str) :
  forall prev, scan ic r prev x 0 = [] <-> search_from ic r prev x = false.
Proof.
  induction x as [|c x IH]; intro prev; simpl.
  - destruct (match_at ic r prev []); split; congruence.
  - destruct (match_at ic r prev (c :: x)); [split; congruence | apply IH].
Qed.

(** ** Citations *)

Lemma Forall_forallb (A : Type) (p : A -> bool) (l : list A) :
  Forall (fun a => p a = true) l <-> forallb p l = true.
Proof. rewrite forallb_forall, Forall_forall. reflexivity. Qed.

(** What the citation pattern matches: the anatomy of a citation. *)
Lemma component_pattern_anatomy (prev : option ascii) (w rest : str)
  (gs : list str) :
  matches false component_pattern prev w rest gs <->
  exists g1 ws g2,
    w = g1 ++ ws ++ txt "(" ++ g2 ++ txt ")" /\ gs = [g1; g2] /\
    g1 <> [] /\ forallb plain_char g1 = true /\
    forallb Char.is_space ws = true /\
    g2 <> [] /\ forallb Char.is_digit g2 = true.
Proof.
  unfold component_pattern. split.
  - intro H.
    apply matches_seq_inv in H. destruct H as [w1 [x1 [gs1 [gs1' [-> [-> [H1 H]]]]]]].
    apply matches_seq_inv in H. destruct H as [w2 [x2 [gs2 [gs2' [-> [-> [H2 H]]]]]]].
    apply matches_seq_inv in H. destruct H as [w3 [x3 [gs3 [gs3' [-> [-> [H3 H]]]]]]].
    apply matches_seq_inv in H. destruct H as [w4 [w5 [gs4 [gs5 [-> [-> [H4 H5]]]]]]].
    inversion H1 as [| | | |r0 p0 w0 rest0 g0 H1'|]; subst.
    inversion H1'; subst.
    inversion H2; subst.
    inversion H3 as [|cs c3 ? ? Hc3| | | |]; subst.
    inversion H4 as [| | | |r0 p0 w0 rest0 g0 H4'|]; subst.
    inversion H4'; subst.
    inversion H5 as [|cs c5 ? ? Hc5| | | |]; subst.
    simpl in Hc3, Hc5. apply Ascii.eqb_eq in Hc3, Hc5. subst c3 c5.
    exists w1, w2, w4. repeat split.
    + intros ->. simpl in *. lia.
    + now apply Forall_forallb.
    + now apply Forall_forallb.
    + intros ->. simpl in *. lia.
    + now apply Forall_forallb.
  - intros [g1 [ws [g2 [-> [-> [N1 [P1 [Pw [N2 P2]]]]]]]]].
    change [g1; g2] with (([] ++ [g1]) ++ ([] ++ ([] ++ (([] ++ [g2]) ++ [])))).
    constructor; [constructor; constructor|].
    + destruct g1; [congruence | simpl; lia].
    + now apply Forall_forallb.
    + constructor; [constructor; [lia | now apply Forall_forallb]|].
      change (txt "(" ++ g2 ++ txt ")") with ([ "("%char ] ++ (g2 ++ [ ")"%char ])).
      constructor; [now constructor|].
      constructor; [constructor; constructor|now constructor].
      * destruct g2; [congruence | simpl; lia].
      * now apply Forall_forallb.
Qed.

Lemma last_char_snoc (prev : option ascii) (w : str) (c : ascii) :
  last_char prev (w ++ [c]) = Some c.
Proof. unfold last_char. now rewrite fold_left_app. Qed.

Lemma cited_match_end (prev : option ascii) (x : str) (m : match_obj) :
  match_at false component_pattern prev x = Some m ->
  fst m <> [] /\ not_plain (last_char prev (fst m)).
Proof.
  intro H. apply match_at_sound in H. destruct H as [rest [_ H]].
  apply component_pattern_anatomy in H.
  destruct H as [g1 [ws [g2 [E _]]]]. rewrite E. split.
  - destruct g1, ws; discriminate.
  - change (txt ")") with [ ")"%char ]. rewrite !app_assoc, last_char_snoc.
    reflexivity.
Qed.

Lemma cited_match_left (prev : option ascii) (ch : ascii) (x : str)
  (m : match_obj) :
  match_at false component_pattern prev (ch :: x) = None ->
  match_at false component_pattern (Some ch) x = Some m ->
  not_plain (Some ch).
Proof.
  intros Hnone H. simpl. destruct (plain_char ch) eqn:P; [|reflexivity].
  exfalso. apply match_at_sound in H. destruct H as [rest [Ex H]].
  apply component_pattern_anatomy in H.
  destruct H as [g1 [ws [g2 [E [_ [N1 [P1 [Pw [N2 P2]]]]]]]]].
  assert (matches false component_pattern prev (ch :: fst m) rest [ch :: g1; g2]) as M.
  { apply component_pattern_anatomy. exists (ch :: g1), ws, g2.
    rewrite E. repeat split; auto; try discriminate.
    simpl. now rewrite P, P1. }
  apply match_at_complete in M. simpl in M. rewrite <- Ex in M. congruence.
Qed.

(** X10.  The anatomy of a cited component.  It stands in the text as a run
    of letters and whitespace, optional whitespace, and digits in
    parentheses; its name is the run stripped, its number the value of the
    digits, its type the classification of the name.  The run is never
    preceded by a letter or a whitespace character: it reaches back to the
    previous citation or to the nearest other character, whatever words
    lie in between. *)
Theorem X10_citation_anatomy (text : str) (c : PatentComponent) :
  In c (cited_components text) ->
  exists pre g1 ws g2 post,
    citation_at text pre g1 ws g2 post /\
    name c = strip g1 /\
    reference_num c = int g2 /\
    component_type c = _classify_component (strip g1) /\
    not_plain (last_char None pre).
Proof.
  unfold cited_components, findall2. rewrite map_map. intro H.
  apply in_map_iff in H. destruct H as [m [<- Hm]].
  unfold finditer in Hm.
  apply (scan_bound false component_pattern not_plain
           cited_match_end cited_match_left) in Hm; [|intros m0 _; exact I].
  destruct Hm as [pre [post [E [Hm HQ]]]].
  apply component_pattern_anatomy in Hm.
  destruct Hm as [g1 [ws [g2 [Ew [Eg [N1 [P1 [Pw [N2 P2]]]]]]]]].
  destruct m as [w gs]. cbn [fst snd] in *. subst w gs.
  exists pre, g1, ws, g2, post. cbn [nth fst snd name reference_num component_type
                                    PatentComponent_].
  repeat split; auto.
  rewrite E. now rewrite <- !app_assoc.
Qed.

Lemma X10_citation_anatomy_witness :
  let text := txt "wherein the pump (10) drives a valve  (012)." in
  let c := PatentComponent_ (txt "drives a valve") 12 PROCESS in
  In c (cited_components text) /\
  exists pre g1 ws g2 post,
    citation_at text pre g1 ws g2 post /\
    name c = strip g1 /\
    reference_num c = int g2 /\
    component_type c = _classify_component (strip g1) /\
    not_plain (last_char None pre).
Proof.
  intros text c.
  assert (In c (cited_components text)) as H by (vm_compute; tauto).
  split; [exact H | exact (X10_citation_anatomy text c H)].
Defined.

(** The citation pattern finds nothing exactly when the text has no
    citation. *)
Lemma cited_nil_iff (text : str) :
  cited_components text = [] <-> ~ has_citation text.
Proof.
  unfold cited_components, findall2, finditer.
  split.
  - intros H [pre [g1 [ws [g2 [post [E C]]]]]].
    apply map_eq_nil in H. apply map_eq_nil in H.
    apply scan_nil_iff in H.
    assert (search_from false component_pattern None text = true) as S.
    { apply search_from_iff. exists pre, (g1 ++ ws ++ txt "(" ++ g2 ++ txt ")"),
        post, [g1; g2].
      split; [rewrite E; now rewrite <- !app_assoc|].
      apply component_pattern_anatomy. exists g1, ws, g2. tauto. }
    congruence.
  - intro Hno.
    destruct (scan false component_pattern None text 0) as [|m l] eqn:E;
      [reflexivity|].
    exfalso. apply Hno.
    assert (In m (scan false component_pattern None text 0)) as Hm
      by (rewrite E; now left).
    apply (scan_bound false component_pattern not_plain
             cited_match_end cited_match_left) in Hm; [|intros m0 _; exact I].
    destruct Hm as [pre [post [Et [Hm _]]]].
    apply component_pattern_anatomy in Hm.
    destruct Hm as [g1 [ws [g2 [Ew [_ C]]]]].
    exists pre, g1, ws, g2, post. split; [|exact C].
    rewrite Et, Ew. now rewrite <- !app_assoc.
Qed.

(** X11.  The keyword scan is tried exactly when the text has no citation:
    on ASCII text the first strategy yields no component if and only if
    nowhere in the text a letter or whitespace character is followed, after
    optional whitespace, by digits in parentheses.  A text with one
    citation is never scanned for keywords: when [int] returns on every
    cited number, the result is the list of the cited components. *)
Theorem X11_fallback_iff_no_citation (text : str) :
  isascii text = true ->
  (cited_components text = [] <-> ~ has_citation text) /\
  (has_citation text -> citations_convert text = true ->
   _extract_components text = cited_components text).
Proof.
  intros _. pose proof (cited_nil_iff text) as Hiff.
  split; [exact Hiff|].
  intros Hc _. apply extract_cited. intro E. now apply Hiff in E.
Qed.

Lemma X11_fallback_iff_no_citation_witness :
  let text := txt "a controller and its memory (see figure (2))" in
  isascii text = true /\ has_citation text /\ citations_convert text = true /\
  _extract_components text = [PatentComponent_ (txt "see figure") 2 PROCESS].
Proof.
  intro text.
  assert (isascii text = true) as A by reflexivity.
  assert (has_citation text) as H.
  { exists (txt "a controller and its memory ("), (txt "see figure"), (txt " "),
           (txt "2"), (txt ")").
    unfold citation_at. repeat split; try reflexivity; discriminate. }
  assert (citations_convert text = true) as V by (vm_compute; reflexivity).
  split; [exact A | split; [exact H | split; [exact V|]]].
  rewrite (proj2 (X11_fallback_iff_no_citation text A) H V).
  vm_compute. reflexivity.
Defined.

(** ** Keyword occurrences *)

Lemma last_char_rev (prev : option ascii) (w : str) :
  last_char prev w = match rev w with c :: _ => Some c | [] => prev end.
Proof.
  destruct w as [|a w] using rev_ind; [reflexivity|].
  now rewrite last_char_snoc, rev_app_distr.
Qed.

Lemma is_word_of_lower_alpha (c : ascii) :
  Char.is_alpha (Char.to_lower c) = true -> Char.is_word c = true.
Proof. each_char c. Qed.

Lemma head_word (w p : str) :
  lower w = p -> head_alpha p = true -> is_word_opt (hd_error w) = true.
Proof.
  intros <- H. destruct w as [|c w]; [discriminate|].
  simpl in *. now apply is_word_of_lower_alpha.
Qed.

Lemma hd_error_app (A : Type) (x y : list A) :
  x <> [] -> hd_error (x ++ y) = hd_error x.
Proof. destruct x; [congruence | reflexivity]. Qed.

(** The keywords of the table begin and end with a letter. *)
Lemma keywords_shape (item : ComponentType * list str) (pattern : str) :
  In item component_patterns -> In pattern (snd item) ->
  head_alpha pattern = true /\ head_alpha (rev pattern) = true.
Proof.
  intros Hi Hp.
  assert (forallb (fun it => forallb (fun p => head_alpha p && head_alpha (rev p))
                                     (snd it)) component_patterns = true) as H
    by (vm_compute; reflexivity).
  rewrite forallb_forall in H. specialize (H item Hi).
  rewrite forallb_forall in H. specialize (H pattern Hp).
  now apply andb_true_iff in H.
Qed.

Lemma keyword_pattern_anatomy (pattern : str) (prev : option ascii)
  (w rest : str) (gs : list str) :
  matches true (keyword_pattern pattern) prev w rest gs ->
  lower w = lower pattern /\
  xorb (is_word_opt prev) (is_word_opt (hd_error (w ++ rest))) = true /\
  xorb (is_word_opt (last_char prev w)) (is_word_opt (hd_error rest)) = true.
Proof.
  unfold keyword_pattern. intro H.
  apply matches_seq_inv in H. destruct H as [w1 [x1 [gs1 [gs1' [-> [_ [H1 H]]]]]]].
  apply matches_seq_inv in H. destruct H as [w2 [w3 [gs2 [gs3 [-> [_ [H2 H3]]]]]]].
  inversion H1 as [| | |? ? B1| |]; subst.
  inversion H3 as [| | |? ? B3| |]; subst.
  apply matches_lit in H2. destruct H2 as [H2 _].
  simpl in *. rewrite app_nil_r in *. auto.
Qed.

Lemma keyword_match_whole_word (item : ComponentType * list str)
  (pattern : str) (prev : option ascii) (w rest : str) (gs : list str) :
  In item component_patterns -> In pattern (snd item) ->
  matches true (keyword_pattern pattern) prev w rest gs ->
  lower w = pattern /\ w <> [] /\
  is_word_opt prev = false /\ is_word_opt (hd_error rest) = false.
Proof.
  intros Hi Hp H. apply keyword_pattern_anatomy in H.
  destruct H as [El [B1 B2]].
  destruct (@table_patterns_plain item pattern Hi Hp) as [_ Hlow].
  destruct (keywords_shape item pattern Hi Hp) as [Hh Ht].
  rewrite Hlow in El.
  assert (w <> []) as Hne.
  { intros ->. simpl in El. subst pattern. discriminate. }
  split; [exact El|]. split; [exact Hne|].
  rewrite hd_error_app in B1 by assumption.
  rewrite (head_word w pattern El Hh) in B1.
  rewrite last_char_rev in B2.
  assert (is_word_opt (hd_error (rev w)) = true) as Hl.
  { apply (head_word (rev w) (rev pattern)); [|assumption].
    unfold lower in *. now rewrite map_rev, El. }
  destruct (rev w) as [|z rw] eqn:Er.
  { apply (f_equal (@rev ascii)) in Er. rewrite rev_involutive in Er.
    simpl in Er. contradiction. }
  simpl in Hl. simpl in B2. rewrite Hl in B2.
  split.
  - destruct (is_word_opt prev); [discriminate | reflexivity].
  - destruct (is_word_opt (hd_error rest)); [discriminate | reflexivity].
Qed.

Lemma keyword_matches_whole_word (text : str) (tm : ComponentType * str) :
  In tm (keyword_matches text) ->
  exists pre post,
    whole_word_at text pre (snd tm) post /\ registered (fst tm) (lower (snd tm)).
Proof.
  unfold keyword_matches. intro H.
  apply in_flat_map in H. destruct H as [item [Hitem H]].
  apply in_flat_map in H. destruct H as [pattern [Hp H]].
  apply in_map_iff in H. destruct H as [w [<- Hw]]. cbn [fst snd].
  unfold findall in Hw. apply in_map_iff in Hw. destruct Hw as [m [<- Hm]].
  unfold finditer in Hm.
  apply (scan_bound true (keyword_pattern pattern) (fun _ => True)) in Hm.
  - destruct Hm as [pre [post [E [Hm _]]]].
    destruct (keyword_match_whole_word item pattern _ _ _ _ Hitem Hp Hm)
      as [El [_ [B1 B2]]].
    exists pre, post. split; [now split|].
    exists item. repeat split; auto. now rewrite El.
  - intros prev x m0 E0. split; [|exact I].
    apply match_at_sound in E0. destruct E0 as [rest [_ M]].
    now destruct (keyword_match_whole_word item pattern _ _ _ _ Hitem Hp M)
      as [_ [Hne _]].
  - intros; exact I.
  - intros m0 _. exact I.
Qed.

(** X12.  The keyword scan finds whole words only.  Every component it
    yields from ASCII text is the title-cased form of a keyword that stands
    in the text with no letter, digit or underscore right before it and
    none right after it, in the type the keyword is written under. *)
Theorem X12_keywords_are_whole_words (text : str) (c : PatentComponent) :
  isascii text = true ->
  cited_components text = [] ->
  In c (fst (parse_claims text)) ->
  exists pre w post,
    whole_word_at text pre w post /\
    name c = title w /\
    registered (component_type c) (lower w).
Proof.
  unfold parse_claims. cbn [fst]. intros _ Hc H.
  rewrite (extract_fallback _ Hc), keyword_scan_fold in H.
  assert (Forall (fun c => exists pre w post,
                      whole_word_at text pre w post /\ name c = title w /\
                      registered (component_type c) (lower w))
            (fst (fold_left step (keyword_matches text) ([], 10%Z)))) as F.
  { apply fold_step_Forall; [|constructor].
    intros tm n Htm. cbn [component_type name PatentComponent_].
    destruct (keyword_matches_whole_word text tm Htm) as [pre [post [W R]]].
    now exists pre, (snd tm), post. }
  rewrite Forall_forall in F. now apply F.
Qed.

Lemma X12_keywords_are_whole_words_witness :
  let text := txt "Two monitors, one MONITOR and a monitor_bus." in
  let c := PatentComponent_ (txt "Monitor") 10 INTERFACE in
  isascii text = true /\
  cited_components text = [] /\
  fst (parse_claims text) = [c] /\
  exists pre w post,
    whole_word_at text pre w post /\
    name c = title w /\
    registered (component_type c) (lower w).
Proof.
  intros text c.
  assert (isascii text = true) as A by reflexivity.
  assert (cited_components text = []) as Hc by (vm_compute; reflexivity).
  assert (fst (parse_claims text) = [c]) as E by (vm_compute; reflexivity).
  split; [exact A | split; [exact Hc | split; [exact E|]]].
  apply (X12_keywords_are_whole_words text c A Hc). rewrite E. now left.
Defined.

(** ** Rendering: every component once, every edge with both ends *)

Lemma flat_map_filter_nil (ks : list ComponentType) :
  flat_map (fun t => filter (has_type t) (@nil PatentComponent)) ks = [].
Proof. induction ks; simpl; auto. Qed.

Lemma flat_map_filter_other (ks : list ComponentType) (c : PatentComponent)
  (cs : list PatentComponent) :
  ~ In (component_type c) ks ->
  flat_map (fun t => filter (has_type t) (c :: cs)) ks
  = flat_map (fun t => filter (has_type t) cs) ks.
Proof.
  induction ks as [|k ks IH]; cbn [flat_map]; [reflexivity|]. intro H.
  rewrite IH by (simpl in H; tauto). f_equal.
  cbn [filter]. unfold has_type at 1.
  destruct (ComponentType_eqb (component_type c) k) eqn:E.
  - apply ComponentType_eqb_eq in E. exfalso. apply H. left. now symmetry.
  - reflexivity.
Qed.

Lemma groups_members_permutation (cs : list PatentComponent)
  (ks : list ComponentType) :
  NoDup ks -> incl (map component_type cs) ks ->
  Permutation (flat_map (fun t => filter (has_type t) cs) ks) cs.
Proof.
  intros Hnd. induction cs as [|c cs IH]; intro Hincl.
  - now rewrite flat_map_filter_nil.
  - assert (In (component_type c) ks) as Hin by (apply Hincl; now left).
    apply in_split in Hin. destruct Hin as [k1 [k2 Ek]].
    assert (Permutation (flat_map (fun t => filter (has_type t) cs) ks) cs) as P.
    { apply IH. intros t Ht. apply Hincl. now right. }
    rewrite Ek in *. apply NoDup_remove_2 in Hnd.
    rewrite flat_map_app in *. cbn [flat_map] in *.
    rewrite !flat_map_filter_other
      by (intro F; apply Hnd; apply in_or_app; tauto).
    cbn [filter]. unfold has_type at 2. rewrite ComponentType_eqb_refl.
    rewrite <- app_comm_cons.
    apply Permutation_sym, Permutation_cons_app, Permutation_sym.
    exact P.
Qed.

Lemma flat_map_snd_groups (cs : list PatentComponent) (ks : list ComponentType) :
  flat_map snd (map (fun t => (t, filter (has_type t) cs)) ks)
  = flat_map (fun t => filter (has_type t) cs) ks.
Proof. induction ks as [|k ks IH]; simpl; [reflexivity | now rewrite IH]. Qed.

(** X13.  Grouping loses nothing and repeats nothing: the members of the
    groups of [_group_components_by_type], taken together, are the
    components in another order; no group is empty, and every member of a
    group has the type that is the key of the group. *)
Theorem X13_groups_partition (components : list PatentComponent) :
  Permutation (flat_map snd (_group_components_by_type components)) components /\
  (forall t members,
      In (t, members) (_group_components_by_type components) ->
      members <> [] /\ forall c, In c members -> component_type c = t).
Proof.
  rewrite group_components_by_type_spec. unfold groups_by_type. split.
  - rewrite flat_map_snd_groups. apply groups_members_permutation.
    + apply first_seen_NoDup.
    + intros t Ht. now apply first_seen_In.
  - intros t members H. apply in_map_iff in H. destruct H as [u [E Hu]].
    injection E as -> <-. split.
    + apply -> first_seen_In in Hu. apply in_map_iff in Hu.
      destruct Hu as [c [Ec Hc]]. intro F.
      assert (In c (filter (has_type t) components)) as Hf.
      { apply filter_In. split; [assumption|].
        unfold has_type. rewrite Ec. apply ComponentType_eqb_refl. }
      rewrite F in Hf. destruct Hf.
    + intros c Hc. apply filter_In in Hc. destruct Hc as [_ Hc].
      now apply ComponentType_eqb_eq.
Qed.

Lemma node_in_group_lines (t : ComponentType) (members : list PatentComponent)
  (c : PatentComponent) :
  In c members -> node_declared c (group_lines (t, members)).
Proof.
  intro H. unfold node_declared, group_lines.
  destruct (1 <? length members).
  - right. unfold _generate_subgraph.
    destruct members as [|first rest]; [destruct H|].
    apply in_or_app. left. apply in_or_app. left. apply in_or_app. right.
    apply (in_map (fun comp => txt "        " ++ to_mermaid_node comp)). exact H.
  - left. apply (in_map (fun comp => txt "    " ++ to_mermaid_node comp)). exact H.
Qed.

Lemma node_declared_in_diagram (components : list PatentComponent)
  (connections : list PatentConnection) (title : str) (c : PatentComponent) :
  In c components ->
  node_declared c (diagram_lines components connections title).
Proof.
  intro H.
  assert (node_declared c (flat_map group_lines
                             (_group_components_by_type components))) as D.
  { rewrite group_components_by_type_spec. unfold groups_by_type.
    assert (In (component_type c, filter (has_type (component_type c)) components)
               (map (fun t => (t, filter (has_type t) components))
                    (first_seen (map component_type components)))) as G.
    { apply (in_map (fun t => (t, filter (has_type t) components))).
      apply first_seen_In. now apply in_map. }
    assert (In c (filter (has_type (component_type c)) components)) as M.
    { apply filter_In. split; [assumption | apply ComponentType_eqb_refl]. }
    destruct (node_in_group_lines (component_type c) _ c M) as [L|L];
      [left | right]; apply in_flat_map; eexists; split; eauto. }
  unfold node_declared, diagram_lines in *.
  destruct D as [D|D]; [left | right];
    apply in_or_app; left; apply in_or_app; left; apply in_or_app; left;
    apply in_or_app; right; exact D.
Qed.

Lemma connection_ends_in_result (text : str) (conn : PatentConnection) :
  In conn (snd (parse_claims text)) ->
  exists c1 c2,
    In c1 (fst (parse_claims text)) /\ In c2 (fst (parse_claims text)) /\
    from_component conn = COMP (reference_num c1) /\
    to_component conn = COMP (reference_num c2).
Proof.
  unfold parse_claims. cbn [fst snd]. intro H.
  apply extract_relationships_ends in H.
  destruct H as [i [j [c1 [c2 [_ [Hi [Hj Hp]]]]]]].
  apply pair_connection_ends in Hp. destruct Hp as [Ef Et].
  exists c1, c2. repeat split; auto; eapply nth_error_In; eauto.
Qed.

Lemma uint_digits (d : Decimal.uint) :
  forallb Char.is_digit (list_ascii_of_string (NilEmpty.string_of_uint d)) = true.
Proof.
  induction d; cbn [NilEmpty.string_of_uint list_ascii_of_string forallb];
    [reflexivity | exact IHd ..].
Qed.

Lemma digit_opens_no_shape (c : ascii) :
  Char.is_digit c = true -> opens_shape c = false.
Proof. each_char c; discriminate. Qed.

Lemma str_of_int_opens_no_shape (n : Z) :
  forallb (fun c => negb (opens_shape c)) (str_of_int n) = true.
Proof.
  assert (forall d, forallb (fun c => negb (opens_shape c))
                      (list_ascii_of_string (NilEmpty.string_of_uint d)) = true) as U.
  { intro d. pose proof (uint_digits d) as D. rewrite forallb_forall in *.
    intros c Hc. now rewrite (digit_opens_no_shape c (D c Hc)). }
  unfold str_of_int. destruct (Z.to_int n) as [d|d];
    cbn [NilEmpty.string_of_int list_ascii_of_string forallb]; [apply U|].
  apply andb_true_iff. split; [reflexivity | apply U].
Qed.

Lemma node_id_app (x rest : str) (b : ascii) :
  forallb (fun c => negb (opens_shape c)) x = true -> opens_shape b = true ->
  node_id (x ++ b :: rest) = x.
Proof.
  intros Hx Hb. induction x as [|c x IH]; simpl in *.
  - now rewrite Hb.
  - apply andb_true_iff in Hx. destruct Hx as [Hc Hx].
    apply negb_true_iff in Hc. rewrite Hc. now rewrite IH.
Qed.

(** The identifier of the node of a component is [COMP] and its number. *)
Lemma node_id_of_node (c : PatentComponent) :
  node_id (to_mermaid_node c) = COMP (reference_num c).
Proof.
  unfold to_mermaid_node. destruct (component_type c); cbn; do 4 f_equal;
    (apply node_id_app; [apply str_of_int_opens_no_shape | reflexivity]).
Qed.

(** X14.  The pipeline draws no dangling edge.  For every relationship that
    [parse_claims] infers, the diagram that [generate_diagram] builds from
    the result has the line of the relationship and, for each of its two
    ends, the node line of a component whose identifier, the text before
    the bracket that opens the node, is that end and nothing more. *)
Theorem X14_no_dangling_edges (text title : str) (conn : PatentConnection) :
  let components := fst (parse_claims text) in
  let connections := snd (parse_claims text) in
  let lines := diagram_lines components connections title in
  In conn connections ->
  generate_diagram components connections title = join [newline] lines /\
  In (txt "    " ++ to_mermaid_connection conn) lines /\
  exists c1 c2,
    In c1 components /\ In c2 components /\
    node_declared c1 lines /\ node_declared c2 lines /\
    node_id (to_mermaid_node c1) = from_component conn /\
    node_id (to_mermaid_node c2) = to_component conn.
Proof.
  intros components connections lines H. split; [reflexivity|]. split.
  - unfold lines, diagram_lines.
    apply in_or_app. left. apply in_or_app. right.
    apply (in_map (fun conn => txt "    " ++ to_mermaid_connection conn)). exact H.
  - destruct (connection_ends_in_result text conn H)
      as [c1 [c2 [H1 [H2 [Ef Et]]]]].
    exists c1, c2. repeat split; auto.
    + now apply node_declared_in_diagram.
    + now apply node_declared_in_diagram.
    + rewrite Ef. apply node_id_of_node.
    + rewrite Et. apply node_id_of_node.
Qed.

Lemma X13_groups_partition_witness :
  let m1 := PatentComponent_ (txt "main memory") 12 DATABASE in
  let p := PatentComponent_ (txt "video processor") 16 PROCESS in
  let m2 := PatentComponent_ (txt "frame memory") 18 DATABASE in
  In (DATABASE, [m1; m2]) (_group_components_by_type [m1; p; m2]) /\
  [m1; m2] <> [] /\
  forall c, In c [m1; m2] -> component_type c = DATABASE.
Proof.
  intros m1 p m2.
  assert (In (DATABASE, [m1; m2]) (_group_components_by_type [m1; p; m2])) as H
    by (vm_compute; tauto).
  split; [exact H | exact (proj2 (X13_groups_partition [m1; p; m2]) _ _ H)].
Defined.

Lemma X14_no_dangling_edges_witness :
  let text := txt "processor (10), connected to, database (12)" in
  let conn := PatentConnection_ (COMP 10) (COMP 12) (txt "Connected To") in
  let components := fst (parse_claims text) in
  let connections := snd (parse_claims text) in
  let lines := diagram_lines components connections (txt "FIG. 1") in
  In conn connections /\
  In (txt "    " ++ to_mermaid_connection conn) lines /\
  exists c1 c2,
    In c1 components /\ In c2 components /\
    node_declared c1 lines /\ node_declared c2 lines /\
    node_id (to_mermaid_node c1) = from_component conn /\
    node_id (to_mermaid_node c2) = to_component conn.
Proof.
  intros text conn components connections lines.
  assert (In conn connections) as H by (vm_compute; tauto).
  split; [exact H|].
  exact (proj2 (X14_no_dangling_edges text (txt "FIG. 1") conn H)).
Defined.

(** ** Numbers and node identifiers *)

Lemma int_of_uint (d : Decimal.uint) :
  forall acc,
    fold_left (fun a c => (10 * a + digit_value c)%Z)
              (list_ascii_of_string (NilEmpty.string_of_uint d)) (Z.pos acc)
    = Z.pos (Pos.of_uint_acc d acc).
Proof.
  induction d; intro acc; cbn [NilEmpty.string_of_uint list_ascii_of_string
                               fold_left Pos.of_uint_acc];
    [reflexivity | rewrite <- IHd; f_equal; vm_compute digit_value; lia ..].
Qed.

Lemma int_of_uint_0 (d : Decimal.uint) :
  fold_left (fun a c => (10 * a + digit_value c)%Z)
            (list_ascii_of_string (NilEmpty.string_of_uint d)) 0%Z
  = Z.of_N (Pos.of_uint d).
Proof.
  induction d; cbn [NilEmpty.string_of_uint list_ascii_of_string fold_left
                    Pos.of_uint];
    [reflexivity | exact IHd | exact (int_of_uint d _) ..].
Qed.

Lemma int_nonneg (x : str) : (0 <= int x)%Z.
Proof.
  unfold int. assert (forall acc, (0 <= acc)%Z ->
    (0 <= fold_left (fun a c => (10 * a + digit_value c)%Z) x acc)%Z) as H.
  { induction x as [|c x IH]; intros acc Ha; cbn [fold_left]; [assumption|].
    apply IH. unfold digit_value. lia. }
  now apply H.
Qed.

Lemma fallback_reference_bounds (text : str) (c : PatentComponent) :
  cited_components text = [] ->
  In c (_extract_components text) ->
  (10 <= reference_num c <= 10 + 2 * Z.of_nat (length (_extract_components text)) - 2)%Z.
Proof.
  intros Hc H. apply In_nth_error in H. destruct H as [i Hi].
  assert (i < length (_extract_components text)) as Li
    by (apply nth_error_Some; congruence).
  pose proof (inv_ids (keyword_scan_inv text)) as Hids.
  rewrite <- (extract_fallback _ Hc) in Hids.
  assert (reference_num c = (10 + 2 * Z.of_nat i)%Z) as ->.
  { apply (even_ids_nth (length (_extract_components text))).
    rewrite <- Hids, nth_error_map, Hi. reflexivity. }
  lia.
Qed.

Lemma extracted_reference_nonneg (text : str) (c : PatentComponent) :
  In c (_extract_components text) -> (0 <= reference_num c)%Z.
Proof.
  intro H. destruct (cited_components text) as [|c0 cs] eqn:E.
  - pose proof (fallback_reference_bounds text c E H). lia.
  - rewrite extract_cited in H by congruence.
    unfold cited_components in H. apply in_map_iff in H.
    destruct H as [m [<- _]]. cbn [reference_num PatentComponent_].
    apply int_nonneg.
Qed.

Lemma int_str_of_int (n : Z) : (0 <= n)%Z -> int (str_of_int n) = n.
Proof.
  intro Hn. unfold int, str_of_int. destruct n as [|p|p]; [reflexivity| |lia].
  cbn [Z.to_int NilEmpty.string_of_int]. rewrite int_of_uint_0.
  now rewrite DecimalPos.Unsigned.of_to.
Qed.

Lemma str_of_int_nonneg_digits (n : Z) :
  (0 <= n)%Z ->
  str_of_int n <> [] /\ forallb Char.is_digit (str_of_int n) = true.
Proof.
  intro Hn. destruct n as [|p|p]; [| |lia].
  - split; [discriminate | reflexivity].
  - split.
    + intro E. pose proof (int_str_of_int (Z.pos p) Hn) as R.
      rewrite E in R. discriminate R.
    + unfold str_of_int. cbn [Z.to_int NilEmpty.string_of_int]. apply uint_digits.
Qed.

(** X15.  The identifier under which an extracted component is drawn is
    [COMP] and a run of digits, never a sign, and two extracted components
    are drawn under one identifier exactly when they have the same
    reference number. *)
Theorem X15_node_identifiers (text : str) (c1 c2 : PatentComponent) :
  In c1 (fst (parse_claims text)) ->
  In c2 (fst (parse_claims text)) ->
  (exists digits,
      node_id (to_mermaid_node c1) = txt "COMP" ++ digits /\
      digits <> [] /\ forallb Char.is_digit digits = true) /\
  (node_id (to_mermaid_node c1) = node_id (to_mermaid_node c2)
   <-> reference_num c1 = reference_num c2).
Proof.
  unfold parse_claims. cbn [fst]. intros H1 H2. rewrite !node_id_of_node. split.
  - exists (str_of_int (reference_num c1)). split; [reflexivity|].
    apply str_of_int_nonneg_digits. now apply (extracted_reference_nonneg text).
  - split; [apply COMP_inj | now intros ->].
Qed.

Lemma X15_node_identifiers_witness :
  let text := txt "a pump (007) feeds a valve (7)" in
  let c1 := PatentComponent_ (txt "a pump") 7 PROCESS in
  let c2 := PatentComponent_ (txt "feeds a valve") 7 PROCESS in
  In c1 (fst (parse_claims text)) /\ In c2 (fst (parse_claims text)) /\
  node_id (to_mermaid_node c1) = node_id (to_mermaid_node c2).
Proof.
  intros text c1 c2.
  assert (In c1 (fst (parse_claims text))) as H1 by (vm_compute; tauto).
  assert (In c2 (fst (parse_claims text))) as H2 by (vm_compute; tauto).
  split; [exact H1 | split; [exact H2|]].
  apply (proj2 (X15_node_identifiers text c1 c2 H1 H2)). reflexivity.
Defined.

(** ** The shapes of the nodes *)

(** X16.  [to_mermaid_node] never draws the shape of its [DISPLAY] branch.
    [DISPLAY] is the member [INTERFACE], which the branch before it
    catches, so whatever the component, the node text differs from the
    quoted parallelogram that the [DISPLAY] branch would build. *)
Theorem X16_display_shape_never_drawn (self : PatentComponent) :
  to_mermaid_node self <> display_node self /\
  (component_type self = DISPLAY ->
   to_mermaid_node self
   = COMP (reference_num self) ++ txt "[/"
       ++ (name self ++ txt " " ++ str_of_int (reference_num self)) ++ txt "/]").
Proof.
  split.
  - unfold to_mermaid_node, display_node.
    set (dn := name self ++ txt " " ++ str_of_int (reference_num self)).
    intro H. destruct (component_type self); cbn -[COMP] in H;
      apply app_inv_head in H; cbn in H;
      try discriminate H.
    + injection H as H. apply (f_equal (@length ascii)) in H.
      simpl in H. rewrite !length_app in H. simpl in H. lia.
    + injection H as H. apply (f_equal (@length ascii)) in H.
      simpl in H. rewrite !length_app in H. simpl in H. lia.
  - unfold to_mermaid_node. now intros ->.
Qed.

Lemma X16_display_shape_never_drawn_witness :
  let self := PatentComponent_ (txt "Display") 14 DISPLAY in
  component_type self = DISPLAY /\
  to_mermaid_node self = txt "COMP14[/Display 14/]".
Proof.
  intro self. split; [reflexivity|].
  rewrite (proj2 (X16_display_shape_never_drawn self) eq_refl).
  vm_compute. reflexivity.
Defined.

(** ** The order of the keyword scan *)

Definition rank_le (a b : ComponentType) : Prop := table_rank a <= table_rank b.

Lemma sorted_snoc (l : list ComponentType) (x : ComponentType) :
  StronglySorted rank_le l -> Forall (fun a => rank_le a x) l ->
  StronglySorted rank_le (l ++ [x]).
Proof.
  induction 1 as [|a l Hl IH Ha]; intro F; simpl.
  - repeat constructor.
  - inversion F as [|? ? Hax Fl]; subst. constructor; [now apply IH|].
    apply Forall_app. split; [assumption | now constructor].
Qed.

Lemma sorted_app (l1 l2 : list ComponentType) :
  StronglySorted rank_le l1 -> StronglySorted rank_le l2 ->
  (forall a b, In a l1 -> In b l2 -> rank_le a b) ->
  StronglySorted rank_le (l1 ++ l2).
Proof.
  induction 1 as [|a l Hl IH Ha]; intros H2 H; simpl; [assumption|].
  constructor.
  - apply IH; [assumption|]. intros x y Hx Hy. apply H; [now right | assumption].
  - apply Forall_app. split; [assumption|].
    apply Forall_forall. intros y Hy. apply H; [now left | assumption].
Qed.

Lemma sorted_constant (t : ComponentType) (l : list ComponentType) :
  Forall (eq t) l -> StronglySorted rank_le l.
Proof.
  induction 1 as [|a l <- F IH]; constructor; [assumption|].
  apply Forall_forall. intros b Hb. rewrite Forall_forall in F.
  rewrite <- (F b Hb). unfold rank_le. lia.
Qed.

Lemma block_in (text : str) (t : ComponentType) (patterns : list str)
  (a : ComponentType) :
  In a (map fst (flat_map (fun pattern =>
                   map (pair t) (findall true (keyword_pattern pattern) text))
                 patterns)) ->
  t = a.
Proof.
  intro Ha. apply in_map_iff in Ha. destruct Ha as [tm [<- Htm]].
  apply in_flat_map in Htm. destruct Htm as [p [_ Htm]].
  apply in_map_iff in Htm. destruct Htm as [w [<- _]]. reflexivity.
Qed.

Lemma block_sorted (text : str) (t : ComponentType) (patterns : list str) :
  StronglySorted rank_le
    (map fst (flat_map (fun pattern =>
                map (pair t) (findall true (keyword_pattern pattern) text))
              patterns)).
Proof.
  apply (sorted_constant t). apply Forall_forall. intros a Ha.
  now apply block_in in Ha.
Qed.

(** The occurrences come in the order of the table: all of [PROCESS], then
    all of [DATABASE], then all of [INTERFACE]. *)
Lemma keyword_matches_sorted (text : str) :
  StronglySorted rank_le (map fst (keyword_matches text)).
Proof.
  unfold keyword_matches. rewrite component_patterns_value.
  cbn [flat_map fst snd]. rewrite app_nil_r, !map_app.
  apply sorted_app; [apply block_sorted | |].
  - apply sorted_app; [apply block_sorted | apply block_sorted |].
    intros a b Ha Hb. apply block_in in Ha, Hb. subst a b.
    unfold rank_le. simpl. lia.
  - intros a b Ha Hb. apply block_in in Ha. subst a.
    unfold rank_le. simpl. lia.
Qed.

Lemma fold_step_sorted (l : list (ComponentType * str))
  (st : list PatentComponent * Z) :
  StronglySorted rank_le (map fst l) ->
  StronglySorted rank_le (map component_type (fst st)) ->
  (forall c tm, In c (fst st) -> In tm l -> rank_le (component_type c) (fst tm)) ->
  StronglySorted rank_le (map component_type (fst (fold_left step l st))).
Proof.
  revert st. induction l as [|tm l IH]; intros st Hl Hst Hle; simpl; [assumption|].
  cbn [map] in Hl. inversion Hl as [|? ? Hl' Htm]; subst.
  rewrite Forall_forall in Htm.
  apply IH; [assumption| |].
  - destruct st as [cs n]. unfold step, scan_step.
    destruct (existsb _ cs); [assumption|]. cbn [fst].
    rewrite map_app. cbn [map component_type PatentComponent_].
    apply sorted_snoc; [assumption|].
    apply Forall_forall. intros a Ha. apply in_map_iff in Ha.
    destruct Ha as [c [<- Hc]]. apply Hle; [assumption | now left].
  - intros c tm' Hc Htm'. destruct st as [cs n]. unfold step, scan_step in Hc.
    destruct (existsb _ cs).
    + apply Hle; [assumption | now right].
    + cbn [fst] in Hc. apply in_app_or in Hc. destruct Hc as [Hc|[<-|F]].
      * apply Hle; [assumption | now right].
      * cbn [component_type PatentComponent_]. apply Htm. now apply in_map.
      * destruct F.
Qed.

Lemma filter_cons_type (t : ComponentType) (c : PatentComponent)
  (cs : list PatentComponent) :
  filter (has_type t) (c :: cs)
  = if ComponentType_eqb (component_type c) t
    then c :: filter (has_type t) cs else filter (has_type t) cs.
Proof. reflexivity. Qed.

Lemma sorted_three (cs : list PatentComponent) :
  StronglySorted rank_le (map component_type cs) ->
  Forall (fun c => In (component_type c) [PROCESS; DATABASE; INTERFACE]) cs ->
  cs = filter (has_type PROCESS) cs ++ filter (has_type DATABASE) cs
         ++ filter (has_type INTERFACE) cs.
Proof.
  induction cs as [|c cs IH]; intros S F; [reflexivity|].
  cbn [map] in S. inversion S as [|? ? S' Hc]; subst.
  inversion F as [|? ? Fc F']; subst.
  specialize (IH S' F'). rewrite Forall_forall in Hc.
  assert (forall t, table_rank t < table_rank (component_type c) ->
                    filter (has_type t) cs = []) as Hnone.
  { intros t Ht. apply filter_all_out. intros d Hd.
    unfold has_type. apply not_true_is_false. intro E.
    apply ComponentType_eqb_eq in E.
    assert (rank_le (component_type c) (component_type d)) as L
      by (apply Hc; now apply in_map).
    unfold rank_le in L. rewrite E in L. lia. }
  rewrite !filter_cons_type.
  destruct Fc as [E|[E|[E|E]]]; [| | |destruct E]; rewrite <- E in *;
    cbn [ComponentType_eqb].
  - simpl. f_equal. exact IH.
  - rewrite (Hnone PROCESS) in * by (simpl; lia). simpl in *. f_equal. exact IH.
  - rewrite (Hnone PROCESS), (Hnone DATABASE) in * by (simpl; lia).
    simpl in *. f_equal. exact IH.
Qed.

(** X17.  The keyword scan orders its components by type, not by place in
    the text: first all components of type [PROCESS], then those of type
    [DATABASE], then those of type [INTERFACE].  The reference numbers
    follow that order. *)
Theorem X17_fallback_in_table_order (text : str) :
  cited_components text = [] ->
  let components := fst (parse_claims text) in
  components
  = filter (has_type PROCESS) components
      ++ filter (has_type DATABASE) components
      ++ filter (has_type INTERFACE) components.
Proof.
  intros Hc components. subst components. unfold parse_claims. cbn [fst].
  apply sorted_three.
  - rewrite (extract_fallback _ Hc), keyword_scan_fold.
    apply fold_step_sorted.
    + apply keyword_matches_sorted.
    + constructor.
    + intros c tm F. destruct F.
  - apply Forall_forall. intros c H. now apply (extract_components_types text).
Qed.

Lemma X17_fallback_in_table_order_witness :
  let text := txt "A display shows what the memory holds; a controller refreshes it." in
  cited_components text = [] /\
  fst (parse_claims text)
  = [ PatentComponent_ (txt "Controller") 10 PROCESS;
      PatentComponent_ (txt "Memory") 12 DATABASE;
      PatentComponent_ (txt "Display") 14 INTERFACE ] /\
  fst (parse_claims text)
  = filter (has_type PROCESS) (fst (parse_claims text))
      ++ filter (has_type DATABASE) (fst (parse_claims text))
      ++ filter (has_type INTERFACE) (fst (parse_claims text)).
Proof.
  intro text.
  assert (cited_components text = []) as Hc by (vm_compute; reflexivity).
  split; [exact Hc | split; [vm_compute; reflexivity|]].
  exact (X17_fallback_in_table_order text Hc).
Defined.

Lemma sorted_nth (R : ComponentType -> ComponentType -> Prop)
  (l : list ComponentType) :
  StronglySorted R l ->
  forall i j a b,
    i < j -> nth_error l i = Some a -> nth_error l j = Some b -> R a b.
Proof.
  induction 1 as [|x l Hl IH Hx]; intros i j a b Hij Hi Hj.
  - destruct i; discriminate.
  - destruct j as [|j]; [lia|]. simpl in Hj. destruct i as [|i]; simpl in Hi.
    + injection Hi as <-. rewrite Forall_forall in Hx. apply Hx.
      eapply nth_error_In; eauto.
    + apply (IH i j); auto. lia.
Qed.

(** X18.  In the keyword scan a relationship always runs from a lower
    reference number to a higher one, and from a type to one that stands
    no earlier in the table: a link that the text states the other way
    round is not found. *)
Theorem X18_fallback_relationship_direction (text : str) (conn : PatentConnection) :
  cited_components text = [] ->
  In conn (snd (parse_claims text)) ->
  exists c1 c2,
    In c1 (fst (parse_claims text)) /\ In c2 (fst (parse_claims text)) /\
    from_component conn = COMP (reference_num c1) /\
    to_component conn = COMP (reference_num c2) /\
    (reference_num c1 < reference_num c2)%Z /\
    table_rank (component_type c1) <= table_rank (component_type c2).
Proof.
  unfold parse_claims. cbn [fst snd]. intros Hc H.
  apply extract_relationships_ends in H.
  destruct H as [i [j [c1 [c2 [Hij [Hi [Hj Hp]]]]]]].
  apply pair_connection_ends in Hp. destruct Hp as [Ef Et].
  exists c1, c2.
  split; [eapply nth_error_In; eauto|]. split; [eapply nth_error_In; eauto|].
  split; [exact Ef|]. split; [exact Et|].
  pose proof (inv_ids (keyword_scan_inv text)) as Hids.
  rewrite <- (extract_fallback _ Hc) in Hids.
  assert (forall k c, nth_error (_extract_components text) k = Some c ->
                      reference_num c = (10 + 2 * Z.of_nat k)%Z) as Hnth.
  { intros k c Hk. apply (even_ids_nth (length (_extract_components text))).
    rewrite <- Hids, nth_error_map, Hk. reflexivity. }
  split; [rewrite (Hnth _ _ Hi), (Hnth _ _ Hj); lia|].
  assert (StronglySorted rank_le (map component_type (_extract_components text))) as S.
  { rewrite (extract_fallback _ Hc), keyword_scan_fold.
    apply fold_step_sorted;
      [apply keyword_matches_sorted | constructor | intros c tm F; destruct F]. }
  apply (sorted_nth rank_le (map component_type (_extract_components text)) S i j);
    [assumption | |]; rewrite nth_error_map; [now rewrite Hi | now rewrite Hj].
Qed.

Lemma X18_fallback_relationship_direction_witness :
  let text := txt "The display is connected to the controller." in
  let text' := txt "The controller is connected to the display." in
  cited_components text' = [] /\
  snd (parse_claims text) = [] /\
  In (PatentConnection_ (COMP 10) (COMP 12) (txt "Connected To"))
     (snd (parse_claims text')) /\
  exists c1 c2,
    In c1 (fst (parse_claims text')) /\ In c2 (fst (parse_claims text')) /\
    COMP 10 = COMP (reference_num c1) /\
    COMP 12 = COMP (reference_num c2) /\
    (reference_num c1 < reference_num c2)%Z /\
    table_rank (component_type c1) <= table_rank (component_type c2).
Proof.
  intros text text'.
  assert (cited_components text' = []) as Hc by (vm_compute; reflexivity).
  assert (In (PatentConnection_ (COMP 10) (COMP 12) (txt "Connected To"))
             (snd (parse_claims text'))) as H by (vm_compute; tauto).
  split; [exact Hc | split; [vm_compute; reflexivity | split; [exact H|]]].
  exact (X18_fallback_relationship_direction text' _ Hc H).
Defined.

(** ** Classification of longer names *)

Lemma occurs_in_trans (p x y : str) :
  occurs_in p x -> occurs_in x y -> occurs_in p y.
Proof.
  intros [a [b ->]] [c [d ->]]. exists (c ++ a), (b ++ d).
  now rewrite <- !app_assoc.
Qed.

(** X19.  Words around a keyword do not hide it from the classifier.  When
    a keyword of some type occurs in a name, every longer name that
    contains this name, in whatever case, is classified with that type or
    with a type that stands earlier in the table; it never falls back to a
    later type. *)
Theorem X19_classification_of_longer_name (x y : str)
  (item : ComponentType * list str) :
  In item component_patterns ->
  item_matches x item ->
  occurs_in (lower x) (lower y) ->
  table_rank (_classify_component y) <= table_rank (fst item).
Proof.
  intros Hin [p [Hp Hx]] Hxy.
  assert (existsb (fun pattern => contains pattern (lower y)) (snd item) = true) as F.
  { apply item_matches_iff. exists p. split; [assumption|].
    now apply (occurs_in_trans p (lower x)). }
  unfold _classify_component. revert Hin F. rewrite component_patterns_value.
  intros Hin F. cbn [find].
  destruct Hin as [<-|[<-|[<-|Hin]]]; [| | |destruct Hin].
  - rewrite F. simpl. lia.
  - destruct (existsb _ (snd (PROCESS, _))); [simpl; lia|].
    rewrite F. simpl. lia.
  - destruct (existsb _ (snd (PROCESS, _))); [simpl; lia|].
    destruct (existsb _ (snd (DATABASE, _))); [simpl; lia|].
    rewrite F. simpl. lia.
Qed.

Lemma X19_classification_of_longer_name_witness :
  let item := (DATABASE,
               map txt ["database"; "data store"; "storage system"; "memory";
                        "data repository"; "storage device"]%string) in
  In item component_patterns /\
  item_matches (txt "database") item /\
  occurs_in (lower (txt "database")) (lower (txt "is connected to Database")) /\
  table_rank (_classify_component (txt "is connected to Database")) <= 1.
Proof.
  intro item.
  assert (In item component_patterns) as H1 by (vm_compute; tauto).
  assert (item_matches (txt "database") item) as H2.
  { exists (txt "database"). split; [now left | now exists [], []]. }
  assert (occurs_in (lower (txt "database"))
                    (lower (txt "is connected to Database"))) as H3
    by now exists (txt "is connected to "), [].
  split; [exact H1 | split; [exact H2 | split; [exact H3|]]].
  exact (X19_classification_of_longer_name _ _ item H1 H2 H3).
Defined.

(** ** Letter case and the keyword scan *)

Lemma cset_mem_lower (cs : cset) (c : ascii) :
  cset_mem true cs (Char.to_lower c) = cset_mem true cs c.
Proof.
  destruct cs as [a| | | |]; simpl.
  - now rewrite to_lower_idem.
  - each_char c.
  - each_char c.
  - each_char c.
  - each_char c.
Qed.

Lemma cset_mem_case (cs : cset) (c c' : ascii) :
  Char.to_lower c = Char.to_lower c' ->
  cset_mem true cs c = cset_mem true cs c'.
Proof.
  intro E. now rewrite <- (cset_mem_lower cs c), E, cset_mem_lower.
Qed.

Lemma is_word_lower (c : ascii) : Char.is_word (Char.to_lower c) = Char.is_word c.
Proof. each_char c. Qed.

Lemma is_word_opt_case (p p' : option ascii) :
  opt_lower p = opt_lower p' -> is_word_opt p = is_word_opt p'.
Proof.
  destruct p as [c|], p' as [c'|]; simpl; intro E; try discriminate; auto.
  injection E as E. now rewrite <- (is_word_lower c), E, is_word_lower.
Qed.

Lemma hd_error_case (x x' : str) :
  lower x = lower x' -> opt_lower (hd_error x) = opt_lower (hd_error x').
Proof.
  destruct x, x'; simpl; intro E; try discriminate; auto.
  injection E as E _. now rewrite E.
Qed.

Lemma lower_length (x x' : str) : lower x = lower x' -> length x = length x'.
Proof.
  intro E. apply (f_equal (@length ascii)) in E. unfold lower in E.
  now rewrite !length_map in E.
Qed.

Lemma same_outcome_orelse (a a' b b' : option match_obj) :
  same_outcome a a' -> same_outcome b b' ->
  same_outcome (match a with Some v => Some v | None => b end)
               (match a' with Some v => Some v | None => b' end).
Proof. destruct a, a'; simpl; tauto. Qed.

Lemma rep_sim (greedy : bool) (cs : cset) (x : str) :
  forall x' lo prev prev'
         (k k' : option ascii -> str -> option match_obj),
    lower x = lower x' ->
    opt_lower prev = opt_lower prev' ->
    (forall p p' y y',
        opt_lower p = opt_lower p' -> lower y = lower y' ->
        same_outcome (k p y) (k' p' y')) ->
    same_outcome (rep true greedy cs lo prev x k)
                 (rep true greedy cs lo prev' x' k').
Proof.
  induction x as [|c x IH]; intros x' lo prev prev' k k' Ex Ep Hk;
    destruct x' as [|c' x']; try discriminate Ex.
  - assert (same_outcome (match lo with O => k prev [] | S _ => None end)
                         (match lo with O => k' prev' [] | S _ => None end)) as S
      by (destruct lo; [now apply Hk | exact I]).
    cbn [rep]. destruct greedy.
    + exact S.
    + now apply same_outcome_orelse.
  - simpl in Ex. injection Ex as Ec Ex.
    assert (same_outcome (match lo with O => k prev (c :: x) | S _ => None end)
                         (match lo with O => k' prev' (c' :: x') | S _ => None end))
      as S.
    { destruct lo; [|exact I]. apply Hk; [assumption|]. simpl. now rewrite Ec, Ex. }
    assert (same_outcome
              (if cset_mem true cs c
               then rep true greedy cs (pred lo) (Some c) x k else None)
              (if cset_mem true cs c'
               then rep true greedy cs (pred lo) (Some c') x' k' else None)) as M.
    { rewrite (cset_mem_case cs c c' Ec).
      destruct (cset_mem true cs c'); [|exact I].
      apply IH; auto. simpl. now rewrite Ec. }
    cbn [rep]. destruct greedy; now apply same_outcome_orelse.
Qed.

Lemma rmatch_sim (r : regex) :
  forall prev prev' x x' caps caps' (k k' : cont match_obj),
    lower x = lower x' ->
    opt_lower prev = opt_lower prev' ->
    (forall p p' y y' c c',
        opt_lower p = opt_lower p' -> lower y = lower y' ->
        same_outcome (k p y c) (k' p' y' c')) ->
    same_outcome (rmatch true r prev x caps k) (rmatch true r prev' x' caps' k').
Proof.
  induction r as [|cs|greedy lo cs| |r IH|r1 IH1 r2 IH2];
    intros prev prev' x x' caps caps' k k' Ex Ep Hk; cbn [rmatch].
  - now apply Hk.
  - destruct x as [|c x], x' as [|c' x']; try discriminate Ex; [exact I|].
    simpl in Ex. injection Ex as Ec Ex.
    rewrite (cset_mem_case cs c c' Ec).
    destruct (cset_mem true cs c'); [|exact I].
    apply Hk; [simpl; now rewrite Ec | assumption].
  - apply rep_sim; auto.
  - rewrite (is_word_opt_case prev prev' Ep).
    rewrite (is_word_opt_case (hd_error x) (hd_error x') (hd_error_case x x' Ex)).
    destruct (xorb _ _); [now apply Hk | exact I].
  - apply IH; auto.
  - apply IH1; auto.
Qed.

Lemma match_at_sim (r : regex) (prev prev' : option ascii) (x x' : str) :
  lower x = lower x' -> opt_lower prev = opt_lower prev' ->
  same_outcome (match_at true r prev x) (match_at true r prev' x').
Proof.
  intros Ex Ep. unfold match_at. apply rmatch_sim; auto.
  intros p p' y y' c c' _ Ey. cbn [same_outcome fst].
  rewrite (lower_length x x' Ex), (lower_length y y' Ey).
  unfold lower in *. now rewrite <- !firstn_map, Ex.
Qed.

Lemma scan_sim (r : regex) (x : str) :
  forall x' prev prev' skip,
    lower x = lower x' -> opt_lower prev = opt_lower prev' ->
    Forall2 (fun m m' => lower (fst m) = lower (fst m'))
            (scan true r prev x skip) (scan true r prev' x' skip).
Proof.
  induction x as [|c x IH]; intros x' prev prev' skip Ex Ep;
    destruct x' as [|c' x']; try discriminate Ex.
  - destruct skip; cbn [scan]; [|constructor].
    pose proof (match_at_sim r prev prev' [] [] Ex Ep) as S.
    destruct (match_at true r prev []), (match_at true r prev' []);
      simpl in S; try contradiction; repeat constructor; assumption.
  - simpl in Ex. injection Ex as Ec Ex.
    assert (opt_lower (Some c) = opt_lower (Some c')) as Ec'
      by (simpl; now rewrite Ec).
    destruct skip as [|n]; cbn [scan]; [|now apply IH].
    assert (lower (c :: x) = lower (c' :: x')) as Ex' by (simpl; now rewrite Ec, Ex).
    pose proof (match_at_sim r prev prev' (c :: x) (c' :: x') Ex' Ep) as S.
    destruct (match_at true r prev (c :: x)) as [m|],
             (match_at true r prev' (c' :: x')) as [m'|];
      simpl in S; try contradiction.
    + constructor; [assumption|].
      rewrite (lower_length _ _ S). now apply IH.
    + now apply IH.
Qed.

Lemma findall_sim (r : regex) (text text' : str) :
  lower text = lower text' ->
  Forall2 (fun w w' => lower w = lower w')
          (findall true r text) (findall true r text').
Proof.
  intro E. unfold findall, finditer.
  pose proof (scan_sim r text text' None None 0 E eq_refl) as F.
  induction F; simpl; constructor; auto.
Qed.

Lemma Forall2_flat_map (A B C : Type) (R : B -> C -> Prop)
  (f : A -> list B) (g : A -> list C) (l : list A) :
  (forall a, Forall2 R (f a) (g a)) -> Forall2 R (flat_map f l) (flat_map g l).
Proof.
  intro H. induction l as [|a l IH]; simpl; [constructor|].
  apply Forall2_app; auto.
Qed.

Lemma keyword_matches_sim (text text' : str) :
  lower text = lower text' ->
  Forall2 same_occurrence (keyword_matches text) (keyword_matches text').
Proof.
  intro E. unfold keyword_matches.
  apply Forall2_flat_map. intro item.
  apply Forall2_flat_map. intro pattern.
  pose proof (findall_sim (keyword_pattern pattern) text text' E) as F.
  induction F; simpl; constructor; auto. now split.
Qed.

Lemma title_char_lower (c : ascii) :
  Char.is_alpha (Char.to_lower c) = Char.is_alpha c /\
  Char.to_lower (Char.to_lower c) = Char.to_lower c /\
  Char.to_upper (Char.to_lower c) = Char.to_upper c /\
  (Char.is_alpha c = false -> Char.to_lower c = c).
Proof. each_char c; repeat split; auto; discriminate. Qed.

Lemma title_from_lower (b : bool) (x : str) :
  title_from b (lower x) = title_from b x.
Proof.
  revert b. induction x as [|c x IH]; intro b; [reflexivity|].
  unfold lower in *. cbn [map title_from].
  destruct (title_char_lower c) as (-> & -> & -> & N).
  rewrite !IH.
  destruct (Char.is_alpha c); [reflexivity|].
  now rewrite N.
Qed.

Lemma title_case (x x' : str) : lower x = lower x' -> title x = title x'.
Proof.
  intro E. unfold title.
  now rewrite <- (title_from_lower false x), E, title_from_lower.
Qed.

Lemma step_case (st : list PatentComponent * Z) (tm tm' : ComponentType * str) :
  same_occurrence tm tm' -> step st tm = step st tm'.
Proof.
  intros [Et Em]. destruct st as [cs n]. unfold step, scan_step.
  now rewrite Et, Em, (title_case _ _ Em).
Qed.

Lemma fold_step_case (l l' : list (ComponentType * str))
  (st : list PatentComponent * Z) :
  Forall2 same_occurrence l l' -> fold_left step l st = fold_left step l' st.
Proof.
  intro F. revert st. induction F as [|tm tm' l l' H F IH]; intro st; simpl;
    [reflexivity|].
  now rewrite (step_case st tm tm' H), IH.
Qed.

Lemma keyword_scan_case (text text' : str) (st : list PatentComponent * Z) :
  lower text = lower text' -> keyword_scan text st = keyword_scan text' st.
Proof.
  intro E. rewrite !keyword_scan_fold.
  apply fold_step_case. now apply keyword_matches_sim.
Qed.

Lemma class_char_lower (c : ascii) :
  plain_char (Char.to_lower c) = plain_char c /\
  Char.is_space (Char.to_lower c) = Char.is_space c /\
  Char.is_digit (Char.to_lower c) = Char.is_digit c.
Proof. each_char c. Qed.

Lemma forallb_case (p : ascii -> bool) (x x' : str) :
  (forall c, p (Char.to_lower c) = p c) ->
  lower x = lower x' -> forallb p x = forallb p x'.
Proof.
  intros Hp E.
  assert (forall y, forallb p (lower y) = forallb p y) as L.
  { induction y as [|c y IH]; [reflexivity|]. simpl. now rewrite Hp, IH. }
  now rewrite <- (L x), E, L.
Qed.

Lemma paren_case (x : str) :
  lower x = txt "(" \/ lower x = txt ")" -> x = lower x.
Proof.
  destruct x as [|c [|d x]]; simpl; intros [E | E]; try discriminate E;
    injection E as E; rewrite E; f_equal; revert E;
    destruct c as [[] [] [] [] [] [] [] []]; vm_compute; intro E;
    try reflexivity; discriminate E.
Qed.

Lemma nonempty_case (x x' : str) : lower x = lower x' -> x <> [] -> x' <> [].
Proof. destruct x, x'; simpl; congruence. Qed.

(** Whether a text has a citation does not depend on letter case. *)
Lemma has_citation_case (text text' : str) :
  lower text = lower text' -> has_citation text -> has_citation text'.
Proof.
  intros E [pre [g1 [ws [g2 [post [Et [N1 [P1 [Pw [N2 P2]]]]]]]]]].
  subst text. symmetry in E. rewrite !lower_app in E.
  apply lower_app_inv in E. destruct E as [pre' [r1 [-> [_ E]]]].
  apply lower_app_inv in E. destruct E as [g1' [r2 [-> [E1 E]]]].
  apply lower_app_inv in E. destruct E as [ws' [r3 [-> [Ew E]]]].
  apply lower_app_inv in E. destruct E as [o' [r4 [-> [Eo E]]]].
  apply lower_app_inv in E. destruct E as [g2' [r5 [-> [E2 E]]]].
  apply lower_app_inv in E. destruct E as [c' [post' [-> [Ec _]]]].
  assert (o' = txt "(") as -> by (rewrite (paren_case o'); rewrite Eo; auto).
  assert (c' = txt ")") as -> by (rewrite (paren_case c'); rewrite Ec; auto).
  exists pre', g1', ws', g2', post'. unfold citation_at.
  split; [reflexivity|].
  split; [exact (nonempty_case g1 g1' (eq_sym E1) N1)|].
  split; [rewrite <- P1; symmetry;
          exact (forallb_case plain_char g1 g1'
                   (fun c => proj1 (class_char_lower c)) (eq_sym E1))|].
  split; [rewrite <- Pw; symmetry;
          exact (forallb_case Char.is_space ws ws'
                   (fun c => proj1 (proj2 (class_char_lower c))) (eq_sym Ew))|].
  split; [exact (nonempty_case g2 g2' (eq_sym E2) N2)|].
  rewrite <- P2; symmetry.
  exact (forallb_case Char.is_digit g2 g2'
           (fun c => proj2 (proj2 (class_char_lower c))) (eq_sym E2)).
Qed.

Lemma cited_nil_case (text text' : str) :
  lower text = lower text' ->
  cited_components text = [] -> cited_components text' = [].
Proof.
  intros E H. apply cited_nil_iff. intro C.
  apply (proj1 (cited_nil_iff text) H).
  exact (has_citation_case text' text (eq_sym E) C).
Qed.

Lemma same_up_to_case_refl (l : list PatentComponent) :
  Forall2 same_up_to_case l l.
Proof. induction l; constructor; auto. now split. Qed.

(** X20.  Without citations the parser reads the text up to letter case
    only: two ASCII texts that agree once lower-cased, the first of them
    with no citation, give the same components, names, numbers and types
    alike, and the same relationships. *)
Theorem X20_keyword_scan_ignores_case (text text' : str) :
  isascii text = true -> isascii text' = true ->
  lower text = lower text' ->
  cited_components text = [] ->
  parse_claims text' = parse_claims text.
Proof.
  intros _ _ E H. pose proof (cited_nil_case text text' E H) as H'.
  assert (_extract_components text' = _extract_components text) as Ec.
  { unfold _extract_components. rewrite H, H'.
    now rewrite (keyword_scan_case text text' _ E). }
  unfold parse_claims. rewrite Ec. f_equal.
  apply extract_relationships_case; [now symmetry | apply same_up_to_case_refl].
Qed.

Lemma X20_keyword_scan_ignores_case_witness :
  let text := txt "The CONTROLLER is coupled to the Memory." in
  let text' := txt "the controller IS COUPLED TO the MEMORY." in
  isascii text = true /\ isascii text' = true /\
  lower text = lower text' /\
  cited_components text = [] /\
  parse_claims text'
  = ([ PatentComponent_ (txt "Controller") 10 PROCESS;
       PatentComponent_ (txt "Memory") 12 DATABASE ],
     [ PatentConnection_ (txt "COMP10") (txt "COMP12") (txt "Coupled To") ]).
Proof.
  intros text text'.
  assert (lower text = lower text') as E by (vm_compute; reflexivity).
  assert (cited_components text = []) as H by (vm_compute; reflexivity).
  split; [reflexivity | split; [reflexivity|]].
  split; [exact E | split; [exact H|]].
  rewrite (X20_keyword_scan_ignores_case text text' eq_refl eq_refl E H).
  vm_compute. reflexivity.
Defined.

(** ** The nodes of extracted components *)

Lemma str_of_int_digits (n : Z) :
  (0 <= n)%Z -> forallb Char.is_digit (str_of_int n) = true.
Proof.
  intro Hn. unfold str_of_int. destruct n as [|p|p]; [reflexivity| |lia].
  cbn [Z.to_int NilEmpty.string_of_int]. apply uint_digits.
Qed.

Lemma forallb_weaken (A : Type) (p q : A -> bool) (l : list A) :
  (forall a, p a = true -> q a = true) ->
  forallb p l = true -> forallb q l = true.
Proof.
  intros H F. rewrite forallb_forall in *. auto.
Qed.

(** X21.  The node of a component extracted from ASCII text is harmless
    text in one of three shapes.  Its label, the name and the number,
    consists of letters, whitespace and digits only, so that it closes no
    bracket and no quotation; and the node is a rectangle, a cylinder or a
    parallelogram, never a diamond, a circle or a document. *)
Theorem X21_extracted_node_shapes (text : str) (c : PatentComponent) :
  isascii text = true ->
  In c (fst (parse_claims text)) ->
  forallb label_char (display_name c) = true /\
  (to_mermaid_node c
   = COMP (reference_num c) ++ txt "[" ++ display_name c ++ txt "]" \/
   to_mermaid_node c
   = COMP (reference_num c) ++ txt "[(" ++ [dquote] ++ display_name c
       ++ [dquote] ++ txt ")]" \/
   to_mermaid_node c
   = COMP (reference_num c) ++ txt "[/" ++ display_name c ++ txt "/]").
Proof.
  unfold parse_claims. cbn [fst]. intros _ H. split.
  - unfold display_name. rewrite !forallb_app.
    apply andb_true_iff. split; [|apply andb_true_iff; split].
    + apply (forallb_weaken _ (fun ch => Char.is_alpha ch || Char.is_space ch));
        [|exact (extract_components_names_plain text c H)].
      intros a Ha. unfold label_char. now rewrite Ha.
    + reflexivity.
    + apply (forallb_weaken _ Char.is_digit);
        [|exact (str_of_int_digits _ (extracted_reference_nonneg text c H))].
      intros a Ha. unfold label_char. rewrite Ha. apply orb_true_r.
  - apply extract_components_types in H. unfold to_mermaid_node, display_name.
    destruct H as [<-|[<-|[<-|F]]]; [| | |destruct F]; cbn; auto.
Qed.

Lemma X21_extracted_node_shapes_witness :
  let text := txt "a data-bus (7) feeds the ALU (12)" in
  let c := PatentComponent_ (txt "feeds the ALU") 12 PROCESS in
  isascii text = true /\
  In c (fst (parse_claims text)) /\
  forallb label_char (txt "feeds the ALU 12") = true.
Proof.
  intros text c.
  assert (isascii text = true) as A by reflexivity.
  assert (In c (fst (parse_claims text))) as H by (vm_compute; tauto).
  split; [exact A | split; [exact H|]].
  exact (proj1 (X21_extracted_node_shapes text c A H)).
Defined.

(** ** Trimmed names *)

Lemma lstrip_head (x : str) (a : ascii) (y : str) :
  lstrip x = a :: y -> Char.is_space a = false.
Proof.
  induction x as [|c x IH]; simpl; [discriminate|].
  destruct (Char.is_space c) eqn:E; [exact IH|].
  intro H. injection H as <- _. exact E.
Qed.

Lemma lstrip_suffix (x : str) : exists ws, x = ws ++ lstrip x.
Proof.
  induction x as [|c x [ws IH]]; [now exists []|]. simpl.
  destruct (Char.is_space c).
  - exists (c :: ws). simpl. now rewrite <- IH.
  - now exists [].
Qed.

Lemma lstrip_fixed (x : str) :
  (forall a y, x = a :: y -> Char.is_space a = false) -> lstrip x = x.
Proof.
  destruct x as [|c x]; [reflexivity|]. intro H. simpl.
  now rewrite (H c x eq_refl).
Qed.

Lemma strip_trimmed (x : str) : trimmed (strip x).
Proof.
  unfold strip, rstrip. split; intros a y E.
  - destruct (lstrip_suffix (rev (lstrip x))) as [ws Hws].
    apply (f_equal (@rev ascii)) in Hws.
    rewrite rev_involutive, rev_app_distr, E in Hws.
    exact (lstrip_head x a _ Hws).
  - apply (f_equal (@rev ascii)) in E.
    rewrite rev_involutive, rev_app_distr in E.
    exact (lstrip_head _ a _ E).
Qed.

Lemma trimmed_strip (x : str) : trimmed x -> strip x = x.
Proof.
  intros [Hh Hl]. unfold strip, rstrip.
  rewrite (lstrip_fixed x Hh), lstrip_fixed; [apply rev_involutive|].
  intros a y E. apply (Hl a (rev y)).
  apply (f_equal (@rev ascii)) in E. rewrite rev_involutive in E.
  now rewrite E.
Qed.

Lemma alpha_not_space (c : ascii) :
  Char.is_alpha (Char.to_lower c) = true -> Char.is_space c = false.
Proof. each_char c. Qed.

Lemma keyword_name_trimmed (t : ComponentType) (x : str) :
  registered t (lower x) -> trimmed x.
Proof.
  intros [item [Hi [_ Hp]]].
  destruct (keywords_shape item (lower x) Hi Hp) as [Hh Hl].
  split; intros a y E; subst x; apply alpha_not_space.
  - exact Hh.
  - rewrite lower_app, rev_app_distr in Hl. exact Hl.
Qed.

(** X22.  Every name comes out trimmed: under either strategy the name of
    an extracted component neither begins nor ends with a whitespace
    character, and stripping it again changes nothing.  The name of a
    cited component can be empty. *)
Theorem X22_names_are_trimmed (text : str) (c : PatentComponent) :
  In c (fst (parse_claims text)) ->
  trimmed (name c) /\ strip (name c) = name c.
Proof.
  unfold parse_claims. cbn [fst]. intro H.
  assert (trimmed (name c)) as T.
  { destruct (cited_components text) as [|c0 cs] eqn:E.
    - exact (keyword_name_trimmed _ _ (fallback_registered text c E H)).
    - rewrite extract_cited in H by congruence.
      unfold cited_components in H. apply in_map_iff in H.
      destruct H as [m [<- _]]. cbn [name PatentComponent_].
      apply strip_trimmed. }
  split; [exact T | now apply trimmed_strip].
Qed.

Lemma X22_names_are_trimmed_witness :
  let text := txt "see  the pump  (5) (10)" in
  fst (parse_claims text)
  = [ PatentComponent_ (txt "see  the pump") 5 PROCESS;
      PatentComponent_ empty 10 PROCESS ] /\
  strip (txt "see  the pump") = txt "see  the pump".
Proof.
  intro text.
  assert (fst (parse_claims text)
          = [ PatentComponent_ (txt "see  the pump") 5 PROCESS;
              PatentComponent_ empty 10 PROCESS ]) as E
    by (vm_compute; reflexivity).
  split; [exact E|].
  apply (proj2 (X22_names_are_trimmed text
                  (PatentComponent_ (txt "see  the pump") 5 PROCESS)
                  ltac:(rewrite E; now left))).
Defined.

(** ** The sub-regions of an extraction *)

Lemma group_keys (components : list PatentComponent) :
  map fst (_group_components_by_type components)
  = first_seen (map component_type components).
Proof.
  rewrite group_components_by_type_spec. unfold groups_by_type.
  rewrite map_map. cbn [fst]. apply map_id.
Qed.

Lemma extraction_group_keys (text : str) :
  incl (map fst (_group_components_by_type (_extract_components text)))
       [PROCESS; DATABASE; INTERFACE].
Proof.
  intros t H. rewrite group_keys in H.
  apply (proj1 (first_seen_In _ _)) in H.
  apply in_map_iff in H. destruct H as [c [<- Hc]].
  now apply (extract_components_types text).
Qed.

(** X23.  The diagram of an extraction has at most three sub-regions, and
    they are named after [PROCESS], [DATABASE] or [INTERFACE]: controllers
    are drawn in the region PROCESS SYSTEM, sensors and displays in the
    region INTERFACE SYSTEM, and no region is named after [CONTROLLER],
    [SENSOR], [DISPLAY] or [STORAGE]. *)
Theorem X23_sub_regions_of_extraction (text : str) (t : ComponentType)
  (members : list PatentComponent) :
  let groups := _group_components_by_type (fst (parse_claims text)) in
  In (t, members) groups ->
  length groups <= 3 /\
  exists region,
    In region [txt "PROCESS"; txt "DATABASE"; txt "INTERFACE"] /\
    firstn 3 (_generate_subgraph t members)
    = [ txt "    subgraph " ++ region ++ txt "_SYS [" ++ [dquote] ++ txt " "
          ++ [dquote] ++ txt "]";
        txt "        direction TB";
        txt "        " ++ region ++ txt "_SYS_TITLE[" ++ [dquote]
          ++ region ++ txt " SYSTEM" ++ [dquote] ++ txt "]" ].
Proof.
  intros groups H. subst groups. unfold parse_claims in *. cbn [fst] in *.
  set (groups := _group_components_by_type (_extract_components text)) in *.
  split.
  - rewrite <- (length_map fst groups).
    apply (NoDup_incl_length (l' := [PROCESS; DATABASE; INTERFACE])).
    + unfold groups. rewrite group_keys. apply first_seen_NoDup.
    + apply extraction_group_keys.
  - assert (In t [PROCESS; DATABASE; INTERFACE]) as Ht
      by (apply (extraction_group_keys text);
          exact (in_map fst groups (t, members) H)).
    exists (txt (Enum.name t)). split.
    + destruct Ht as [<-|[<-|[<-|F]]]; [| | |destruct F]; cbn; tauto.
    + destruct Ht as [<-|[<-|[<-|F]]]; [| | |destruct F];
        destruct members; reflexivity.
Qed.

Lemma X23_sub_regions_of_extraction_witness :
  let text := txt "A controller and a control unit drive the display and the screen." in
  let members := [ PatentComponent_ (txt "Controller") 10 PROCESS;
                   PatentComponent_ (txt "Control Unit") 12 PROCESS ] in
  In (CONTROLLER, members) (_group_components_by_type (fst (parse_claims text))) /\
  length (_group_components_by_type (fst (parse_claims text))) <= 3.
Proof.
  intros text members.
  assert (In (CONTROLLER, members)
             (_group_components_by_type (fst (parse_claims text)))) as H
    by (vm_compute; tauto).
  split; [exact H|].
  exact (proj1 (X23_sub_regions_of_extraction text CONTROLLER members H)).
Defined.
